(** * Concordance between annotations: mandos/analysis/distances.py

    A shallow embedding of [MatrixCalculator] and [JPrimeMatrixCalculator].

    Numbers.  The arithmetic of the module is embedded three times.
    - Exact: floats are the real numbers they stand for, [math.fsum] is
      the sum and [math.sqrt] is [sqrt].  This embedding carries the
      properties of the structure of the code: which exception is raised,
      which cells are written, what an argument can influence, the order
      of iteration.
    - [Rounded]: the same functions with the rounding of every operation
      written out, for a rounding [rnd] of which the properties of
      rounding to nearest in binary64 are assumed ([rounding]).  It carries
      the numerical properties, for weights between 2^-500 and 2^500, where
      no intermediate result overflows or underflows.
    - [Binary64]: the per-pair terms on primitive binary64 floats, to
      evaluate them at concrete weights.
    The one special float the module produces itself, [np.nan], is a
    separate constructor of [pyfloat].

    Exceptions.  A computation returns [Ok v] or raises, [Err e]; the
    exceptions the module can raise are [ZeroDivisionError] (float division
    by zero), [ValueError] ([math.sqrt] of a negative number) and
    [TypeError] (calling an object that is not callable);
    [NotImplementedError] is what the stubs of filtration.py raise.

    Collaborators.  [AnalysisUtils] ([elle], [weights_of_pairs],
    [hit_multidict]), [AbstractHit] and [SimilarityDf] are imported by the
    module but are not part of the sources at hand.  [elle] and
    [weights_of_pairs] are section variables of the embedding; the
    definitions that stand in for them at concrete inputs are marked as
    modelled from the specification.

    The development also embeds the taxon parsers of entry/_arg_utils.py
    ([ArgUtils]) and [AtcSearch] of search/chembl/atc_search.py. *)

From Stdlib Require Import Floats.
From Stdlib Require Import Reals Lra Lia Ascii.
From stdpp Require Import gmap strings list fin_maps pretty sorting.

Local Open Scope R_scope.

(** ** Values, exceptions and the error monad *)

Inductive exn : Set :=
  | ZeroDivisionError
  | ValueError
  | TypeError
  | NotImplementedError.

Inductive res (A : Type) : Type :=
  | Ok (v : A)
  | Err (e : exn).
Arguments Ok {A} v.
Arguments Err {A} e.

(** Sequencing: an exception raised by the first computation propagates.
    With this instance [x ← m; k] is stdpp's notation for it. *)
#[global] Instance res_bind : MBind res := λ A B k m,
  match m with
  | Ok v => k v
  | Err e => Err e
  end.

(** A list comprehension whose element expression may raise: elements are
    evaluated left to right and the first exception propagates. *)
Fixpoint comprehension {A B : Type} (f : A → res B) (l : list A) : res (list B) :=
  match l with
  | [] => Ok []
  | x :: l' => y ← f x; ys ← comprehension f l'; Ok (y :: ys)
  end.

(** A float: [np.nan] or a number. *)
Inductive pyfloat : Type :=
  | NaN
  | Num (r : R).

(** [math.fsum]: the exact sum. *)
Definition fsum (values : list R) : R := foldr Rplus 0 values.

(** [len(values)] as the divisor of a float division. *)
Definition len (values : list R) : R := INR (length values).

(** [x / y] on floats raises when the divisor is zero. *)
Definition truediv (x y : R) : res R :=
  if Req_dec_T y 0 then Err ZeroDivisionError else Ok (x / y).

(** [math.sqrt] raises a domain error below zero. *)
Definition math_sqrt (x : R) : res R :=
  if Rlt_dec x 0 then Err ValueError else Ok (sqrt x).

(** ** Hits *)

(** The attributes of [AbstractHit] that the module and its collaborators
    read (specification, section 3): the entity the hit was found for, the
    data source, the claim the hit makes, and its confidence. *)
Record Hit : Type := mkHit {
  origin_inchikey : string;
  data_source : string;
  hit_claim : string;
  confidence : R
}.

(** [{h.data_source for h in hits}] *)
Definition sources_of (hits : list Hit) : gset string :=
  list_to_set (data_source <$> hits).

(** [[h for h in hits if h.data_source == source]] *)
Definition of_source (source : string) (hits : list Hit) : list Hit :=
  filter (λ h, data_source h = source) hits.

(** Modelled from the spec: [Au.hit_multidict(hits, key)], which is not in
    the sources, "groups hits by origin identifier ... in a single pass over
    the hit collection" into an ordered mapping.  The mapping is kept as an
    association list in insertion order, as a Python dict keeps its items:
    a hit joins the end of its key's group, a new key joins the end of the
    mapping. *)
Fixpoint multidict_add (k : string) (h : Hit) (d : list (string * list Hit))
  : list (string * list Hit) :=
  match d with
  | [] => [(k, [h])]
  | (k', g) :: d' =>
      if decide (k = k') then (k', g ++ [h]) :: d'
      else (k', g) :: multidict_add k h d'
  end.

Definition hit_multidict (key : Hit → string) (hits : list Hit)
  : list (string * list Hit) :=
  foldl (λ d h, multidict_add (key h) h d) [] hits.

(** The nested dict [data] that [calc] fills and hands to
    [SimilarityDf.from_dict] (not in the sources): row label, then column
    label, then the cell. *)
Abbreviation matrix := (gmap string (gmap string pyfloat)).

(** [data[c1][c2] = v] on a [defaultdict(dict)]: a missing row starts
    empty. *)
Definition set_cell (data : matrix) (c1 c2 : string) (v : pyfloat) : matrix :=
  <[c1 := <[c2 := v]> (data !!! c1)]> data.

(** Reading a cell; [None] when the row or the column is absent. *)
Definition cell (data : matrix) (c1 c2 : string) : option pyfloat :=
  row ← data !! c1; row !! c2.

(** ** MatrixCalculator *)

(** The objects the body of the base-class method touches: the constant
    [NotImplemented], exception classes and their instances. *)
Inductive pyobj : Set :=
  | NotImplemented_const
  | exception_class (e : exn)
  | exception_instance (e : exn).

(** [f()]: a class builds an instance; nothing else here is callable. *)
Definition call (f : pyobj) : res pyobj :=
  match f with
  | exception_class e => Ok (exception_instance e)
  | NotImplemented_const | exception_instance _ => Err TypeError
  end.

(** [raise <expr>]: the expression is evaluated first, and what it raises
    propagates; an exception class or instance is raised; any other value
    is a [TypeError]. *)
Definition raise {A : Type} (expr : res pyobj) : res A :=
  match expr with
  | Err e => Err e
  | Ok (exception_class e) | Ok (exception_instance e) => Err e
  | Ok NotImplemented_const => Err TypeError
  end.

Module MatrixCalculator.

Definition calc (hits : list Hit) : res matrix :=
  raise (call NotImplemented_const).

End MatrixCalculator.

(** The stubs of filtration.py raise as intended, by calling the exception
    class: [raise NotImplementedError()]. *)
Module Filtration.

Definition apply (df : list Hit) : res (list Hit) :=
  raise (call (exception_class NotImplementedError)).

End Filtration.

(** ** JPrimeMatrixCalculator *)

Section JPrime.

(** [Au.elle] and [Au.weights_of_pairs]; the latter stands for the values
    of the mapping it returns, in iteration order. *)
Variable elle : R → R.
Variable weights_of_pairs : list Hit → list Hit → list (R * R).

Definition _wedge (ca cb : R) : res R :=
  math_sqrt (elle ca * elle cb).

Definition _vee (ca cb : R) : res R :=
  s ← math_sqrt (elle ca * elle cb);
  Ok (elle ca + elle cb - s).

(** The element expression of the comprehension in [_jx]. *)
Definition pair_score (p : R * R) : res R :=
  w ← _wedge p.1 p.2;
  v ← _vee p.1 p.2;
  truediv w v.

Definition _jx (hits1 hits2 : list Hit) : res R :=
  let pair_to_weights := weights_of_pairs hits1 hits2 in
  values ← comprehension pair_score pair_to_weights;
  truediv (fsum values) (len values).

(** The body of [_j_prime] once the set of shared sources is enumerated
    in some order.  Both arguments of [_jx] are filtered from [hits1], as
    in the source. *)
Definition _j_prime_over (order : list string) (hits1 : list Hit) : res pyfloat :=
  values ← comprehension
              (λ source, _jx (of_source source hits1) (of_source source hits1))
              order;
  r ← truediv (fsum values) (len values);
  Ok (Num r).

Definition _j_prime (hits1 hits2 : list Hit) : res pyfloat :=
  let sources := sources_of hits1 ∩ sources_of hits2 in
  if decide (size sources = 0%nat) then Ok NaN
  else _j_prime_over (elements sources) hits1.

(** The loop of [calc] over the zipped items. *)
Fixpoint calc_loop (pairs : list ((string * list Hit) * (string * list Hit)))
    (data : matrix) : res matrix :=
  match pairs with
  | [] => Ok data
  | ((c1, hits1), (c2, hits2)) :: rest =>
      v ← _j_prime hits1 hits2;
      calc_loop rest (set_cell data c1 c2 v)
  end.

Definition calc (hits : list Hit) : res matrix :=
  let inchikey_to_hits := hit_multidict origin_inchikey hits in
  calc_loop (zip inchikey_to_hits inchikey_to_hits) ∅.

End JPrime.

(** ** Stand-ins for the collaborators at concrete inputs *)

(** Modelled from the spec: [Au.weights_of_pairs] is not in the sources.
    "Given two collections of hits restricted to one data source, returns,
    for every pair of hits judged to be matched, their two confidence
    weights (ca, cb)"; the matching policy is "collaborator-defined", so it
    is an argument, and "a hit may participate in multiple matched
    pairs". *)
Definition matched_pairs (matched : Hit → Hit → bool) (hits1 hits2 : list Hit)
  : list (R * R) :=
  h1 ← hits1;
  h2 ← filter (λ h2, matched h1 h2 = true) hits2;
  [(confidence h1, confidence h2)].

(** Two matching policies: hits that make the same claim, and (the
    specification's "cross-entity pairing") hits of different entities that
    make the same claim. *)
Definition same_claim (h1 h2 : Hit) : bool :=
  bool_decide (hit_claim h1 = hit_claim h2).

Definition cross_entity (h1 h2 : Hit) : bool :=
  bool_decide (origin_inchikey h1 ≠ origin_inchikey h2) && same_claim h1 h2.

(** Modelled from the spec: [Au.elle] is not in the sources.  It is "a
    deterministic, pure, monotonic mapping ... to a non-negative real
    number" with [elle(0) = 0]; the ramp is the simplest such mapping. *)
Definition elle_ramp (c : R) : R := Rmax 0 c.

(** ** Predicates used in the statements *)

(** Two outcomes that agree up to the order of the values. *)
Definition same_up_to_order {B : Type} (r r' : res (list B)) : Prop :=
  match r, r' with
  | Ok ys, Ok ys' => ys ≡ₚ ys'
  | Err e, Err e' => e = e'
  | _, _ => False
  end.

(** The extractor treats its two arguments alike: swapping the two
    collections swaps each pair of weights. *)
Definition extractor_symmetric (wop : list Hit → list Hit → list (R * R)) : Prop :=
  ∀ hits1 hits2, wop hits2 hits1 ≡ₚ prod_swap <$> wop hits1 hits2.

(** The extractor does not depend on the order in which hits are listed. *)
Definition extractor_order_independent
    (wop : list Hit → list Hit → list (R * R)) : Prop :=
  ∀ hits1 hits1' hits2 hits2',
    hits1 ≡ₚ hits1' → hits2 ≡ₚ hits2' → wop hits1 hits2 ≡ₚ wop hits1' hits2'.

(** Hits (of one source) on which [_jx], called as [_j_prime] calls it,
    finds at least one matched pair and only positive weights. *)
Definition scorable (elle : R → R) (wop : list Hit → list Hit → list (R * R))
    (hits : list Hit) : Prop :=
  wop hits hits ≠ [] ∧ ∀ p, p ∈ wop hits hits → 0 < elle p.1 ∧ 0 < elle p.2.

(** The hits of one entity, in their order of occurrence. *)
Definition of_entity (c : string) (hits : list Hit) : list Hit :=
  filter (λ h, origin_inchikey h = c) hits.

(** ** Sample hits *)

Definition hit_A_X : Hit := mkHit "A" "X" "p" 1.
Definition hit_A_X4 : Hit := mkHit "A" "X" "p" 4.
Definition hit_B_X : Hit := mkHit "B" "X" "p" 1.
Definition hit_B_Y : Hit := mkHit "B" "Y" "p" 1.
Definition hit_C_X : Hit := mkHit "C" "X" "q" 4.
Definition hit_A_Y : Hit := mkHit "A" "Y" "p" 4.

(** ** Rounded arithmetic *)

(** The arithmetic of the module again, with the rounding of every
    operation written out: [rnd] maps the exact result of an operation to
    the float that is returned.  [math.fsum] is the correctly rounded exact
    sum.  With [rnd] the identity this is the exact arithmetic above. *)
Module Rounded.

Section Model.

Variable rnd : R → R.
Variable elle : R → R.
Variable weights_of_pairs : list Hit → list Hit → list (R * R).

(** [math.fsum]: the exact sum, rounded once. *)
Definition fsum (values : list R) : R := rnd (foldr Rplus 0 values).

(** [x / y] on floats. *)
Definition truediv (x y : R) : res R :=
  if Req_dec_T y 0 then Err ZeroDivisionError else Ok (rnd (x / y)).

(** [math.sqrt] *)
Definition math_sqrt (x : R) : res R :=
  if Rlt_dec x 0 then Err ValueError else Ok (rnd (sqrt x)).

Definition _wedge (ca cb : R) : res R :=
  math_sqrt (rnd (elle ca * elle cb)).

Definition _vee (ca cb : R) : res R :=
  s ← math_sqrt (rnd (elle ca * elle cb));
  Ok (rnd (rnd (elle ca + elle cb) - s)).

Definition pair_score (p : R * R) : res R :=
  w ← _wedge p.1 p.2;
  v ← _vee p.1 p.2;
  truediv w v.

Definition _jx (hits1 hits2 : list Hit) : res R :=
  let pair_to_weights := weights_of_pairs hits1 hits2 in
  values ← comprehension pair_score pair_to_weights;
  truediv (fsum values) (len values).

Definition _j_prime_over (order : list string) (hits1 : list Hit) : res pyfloat :=
  values ← comprehension
              (λ source, _jx (of_source source hits1) (of_source source hits1))
              order;
  r ← truediv (fsum values) (len values);
  Ok (Num r).

Definition _j_prime (hits1 hits2 : list Hit) : res pyfloat :=
  let sources := sources_of hits1 ∩ sources_of hits2 in
  if decide (size sources = 0%nat) then Ok NaN
  else _j_prime_over (elements sources) hits1.

End Model.

End Rounded.

(** The unit roundoff of binary64 and the magnitudes between which a
    result is a normal number below the overflow threshold. *)
Definition eps : R := / 2 ^ 53.
Definition tiny : R := / 2 ^ 1022.
Definition huge : R := 2 ^ 1023.

Definition normal (x : R) : Prop := tiny <= Rabs x <= huge.

(** What is assumed of the rounding: a relative error of at most [eps] on
    normal results, floats are left as they are, 0 and 1 are floats, and
    the order is kept.  Rounding to nearest in binary64 has these
    properties. *)
Definition rounding (rnd : R → R) : Prop :=
  (∀ x, normal x → Rabs (rnd x - x) <= eps * Rabs x) ∧
  (∀ x, rnd (rnd x) = rnd x) ∧
  rnd 0 = 0 ∧ rnd 1 = 1 ∧
  (∀ x y, x <= y → rnd x <= rnd y).

(** The intermediate values of one per-pair score on the weights [a] and
    [b], in the order the code computes them, and the geometric mean they
    are compared with. *)
Definition geometric (a b : R) : R := sqrt (a * b).
Definition product_term (rnd : R → R) (a b : R) : R := rnd (a * b).
Definition wedge_term (rnd : R → R) (a b : R) : R :=
  rnd (sqrt (product_term rnd a b)).
Definition sum_term (rnd : R → R) (a b : R) : R := rnd (a + b).
Definition vee_term (rnd : R → R) (a b : R) : R :=
  rnd (sum_term rnd a b - wedge_term rnd a b).
Definition score_term (rnd : R → R) (a b : R) : R :=
  rnd (wedge_term rnd a b / vee_term rnd a b).

Ltac unfold_terms :=
  unfold score_term, vee_term, sum_term, wedge_term, product_term, geometric in *.

(** Weights whose products, sums and quotients stay normal. *)
Definition weight_lo : R := / 2 ^ 500.
Definition weight_hi : R := 2 ^ 500.

Definition in_range (w : R) : Prop := weight_lo <= w <= weight_hi.

(** A weight whose square and double are floats: nothing is rounded when
    it is paired with itself. *)
Definition exact_at (rnd : R → R) (e : R) : Prop :=
  0 < e ∧ rnd e = e ∧ rnd (e * e) = e * e ∧ rnd (e + e) = e + e.

(** A lower bound of the scores of weights in range. *)
Definition score_lo : R := weight_lo / (64 * weight_hi).

(** Well-formed inputs of [_j_prime]: at most 2^53 shared sources and,
    for every shared source, whichever of the two entities' hits of that
    source are paired, the extractor finds at least one pair and at most
    2^53, and every weight is in range. *)
Definition well_formed (elle : R → R)
    (weights_of_pairs : list Hit → list Hit → list (R * R))
    (hits1 hits2 : list Hit) : Prop :=
  INR (size (sources_of hits1 ∩ sources_of hits2)) <= 2 ^ 53 ∧
  ∀ source x y,
    source ∈ sources_of hits1 ∩ sources_of hits2 →
    x ∈ [of_source source hits1; of_source source hits2] →
    y ∈ [of_source source hits1; of_source source hits2] →
    weights_of_pairs x y ≠ [] ∧
    INR (length (weights_of_pairs x y)) <= 2 ^ 53 ∧
    ∀ p, p ∈ weights_of_pairs x y → in_range (elle p.1) ∧ in_range (elle p.2).

(** ** Binary64 *)

(** The per-pair arithmetic on binary64 floats, for evaluation at concrete
    inputs. *)
Module Binary64.

Definition math_sqrt (x : float) : res float :=
  if PrimFloat.ltb x 0%float then Err ValueError else Ok (PrimFloat.sqrt x).

Definition truediv (x y : float) : res float :=
  if PrimFloat.eqb y 0%float then Err ZeroDivisionError else Ok (PrimFloat.div x y).

Section Model.

Variable elle : float → float.

Definition _wedge (ca cb : float) : res float :=
  math_sqrt (PrimFloat.mul (elle ca) (elle cb)).

Definition _vee (ca cb : float) : res float :=
  s ← math_sqrt (PrimFloat.mul (elle ca) (elle cb));
  Ok (PrimFloat.sub (PrimFloat.add (elle ca) (elle cb)) s).

Definition pair_score (p : float * float) : res float :=
  w ← _wedge p.1 p.2;
  v ← _vee p.1 p.2;
  truediv w v.

End Model.

(** Modelled from the spec: the ramp [elle_ramp] on floats. *)
Definition elle_ramp (c : float) : float :=
  if PrimFloat.ltb c 0%float then 0%float else c.

End Binary64.

(** Sample weights: two nearby floats just above 1, 2^600 and 2^-600. *)
Definition weight_a : float := 0x1.0000003adfcc9p+0%float.
Definition weight_b : float := 0x1.0000003adfcd0p+0%float.
Definition weight_big : float := 0x1p+600%float.
Definition weight_small : float := 0x1p-600%float.

(** ** entry/_arg_utils.py: ArgUtils *)

(** Python [str] values are Rocq strings.  [str.strip], [str.isdigit] and
    [int] are modelled on ASCII text, where white space is the characters
    9-13, 28-31 and 32 and the digits are 0-9.  [int] refuses a string of
    more than 4300 digits, the interpreter's default limit
    ([sys.get_int_max_str_digits]), with the builtin [ValueError]; its
    message is not modelled. *)

Inductive xerror : Set :=
  | XTypeError (message : string)
  | XValueError (message : string)
  | BuiltinValueError.

Inductive outcome (A : Type) : Type :=
  | Return (v : A)
  | Raise (e : xerror).
Arguments Return {A} v.
Arguments Raise {A} e.

#[global] Instance outcome_bind : MBind outcome := λ A B k m,
  match m with
  | Return v => k v
  | Raise e => Raise e
  end.

(** A list comprehension over [outcome]: left to right, the first
    exception propagates. *)
Fixpoint traverse {A B : Type} (f : A → outcome B) (l : list A) : outcome (list B) :=
  match l with
  | [] => Return []
  | x :: l' => y ← f x; ys ← traverse f l'; Return (y :: ys)
  end.

Definition ascii_char (c : ascii) : bool := Nat.ltb (nat_of_ascii c) 128%nat.

Fixpoint ascii_text (s : string) : bool :=
  match s with
  | EmptyString => true
  | String c s' => ascii_char c && ascii_text s'
  end.

Definition isspace (c : ascii) : bool :=
  let n := nat_of_ascii c in
  ((Nat.leb 9 n && Nat.leb n 13) || (Nat.leb 28 n && Nat.leb n 32))%nat.

Definition isdigit_char (c : ascii) : bool :=
  let n := nat_of_ascii c in (Nat.leb 48 n && Nat.leb n 57)%nat.

Fixpoint lstrip (s : string) : string :=
  match s with
  | EmptyString => EmptyString
  | String c s' => if isspace c then lstrip s' else s
  end.

Fixpoint rstrip (s : string) : string :=
  match s with
  | EmptyString => EmptyString
  | String c s' =>
      match rstrip s' with
      | EmptyString => if isspace c then EmptyString else String c EmptyString
      | t => String c t
      end
  end.

(** [s.strip()] *)
Definition str_strip (s : string) : string := lstrip (rstrip s).

(** [s.split(sep)] for a separator of one character: never empty, and an
    empty string splits into one empty token. *)
Fixpoint str_split (sep : ascii) (s : string) : list string :=
  match s with
  | EmptyString => [EmptyString]
  | String c s' =>
      if decide (c = sep) then EmptyString :: str_split sep s'
      else match str_split sep s' with
           | t :: ts => String c t :: ts
           | [] => [String c EmptyString]
           end
  end.

Fixpoint all_digits (s : string) : bool :=
  match s with
  | EmptyString => true
  | String c s' => isdigit_char c && all_digits s'
  end.

(** [s.isdigit()]: at least one character, all of them digits. *)
Definition str_isdigit (s : string) : bool :=
  match s with
  | EmptyString => false
  | _ => all_digits s
  end.

Fixpoint int_from (acc : Z) (s : string) : Z :=
  match s with
  | EmptyString => acc
  | String c s' => int_from (10 * acc + Z.of_nat (nat_of_ascii c - 48)%nat)%Z s'
  end.

Definition int_max_str_digits : nat := 4300%nat.

(** [int(s)] on a string of digits. *)
Definition int_of_str (s : string) : outcome Z :=
  if (int_max_str_digits <? String.length s)%nat
  then Raise BuiltinValueError
  else Return (int_from 0%Z s).

(** Whether a character occurs in a string. *)
Fixpoint occurs (c : ascii) (s : string) : bool :=
  match s with
  | EmptyString => false
  | String c' s' => bool_decide (c' = c) || occurs c s'
  end.

(** [Union[int, str]] *)
Inductive taxon : Set :=
  | taxon_int (n : Z)
  | taxon_str (s : string).

Definition is_str (t : taxon) : bool :=
  match t with taxon_str _ => true | taxon_int _ => false end.

(** [f"{taxon}"] *)
Definition format_taxon (t : taxon) : string :=
  match t with
  | taxon_int n => pretty n
  | taxon_str s => s
  end.

Definition parse_taxon (t : taxon) (id_only : bool) : outcome taxon :=
  if is_str t && negb id_only then Return t
  else
    match t with
    | taxon_str s =>
        if str_isdigit s then n ← int_of_str s; Return (taxon_int n)
        else if id_only
             then Raise (XTypeError ("Taxon " +:+ format_taxon t +:+ " must be an ID"))
             else Raise (XTypeError ("Taxon " +:+ format_taxon t +:+ " must be an ID or name"))
    | taxon_int _ =>
        if id_only
        then Raise (XTypeError ("Taxon " +:+ format_taxon t +:+ " must be an ID"))
        else Raise (XTypeError ("Taxon " +:+ format_taxon t +:+ " must be an ID or name"))
    end.

Section Taxa.

(** [Globals.vertebrata], [Globals.cellular_taxon] and
    [Globals.viral_taxon] are not in the sources; they enter through
    their [str()] rendering. *)
Variable vertebrata : string.
Variable cellular_taxon : string.
Variable viral_taxon : string.

Definition std_taxa : gmap string string :=
  list_to_map [
    ("vertebrata", vertebrata);
    ("vertebrate", vertebrata);
    ("vertebrates", vertebrata);
    ("cellular", cellular_taxon);
    ("cell", cellular_taxon);
    ("cells", cellular_taxon);
    ("viral", viral_taxon);
    ("virus", viral_taxon);
    ("viruses", viral_taxon);
    ("all", cellular_taxon +:+ "," +:+ viral_taxon)
  ].

Definition _get_std_taxon (taxa : string) : string :=
  match std_taxa !! taxa with
  | None => taxa
  | Some x => x
  end.

(** [[t.strip() for t in taxa.split(",") if len(t.strip()) > 0]] *)
Definition tokens (taxa : string) : list string :=
  str_strip <$>
    filter (λ t, (0 < String.length (str_strip t))%nat) (str_split "," taxa).

(** The tokens of an argument of [parse_taxa] or [parse_taxa_ids], after
    the standard names are expanded. *)
Definition expanded_tokens (taxa : option string) : list string :=
  match taxa with
  | None => []
  | Some s => if decide (s = "") then [] else tokens (_get_std_taxon s)
  end.

Definition parse_taxa (taxa : option string) : outcome (list taxon) :=
  match taxa with
  | None => Return []
  | Some s =>
      if decide (s = "") then Return []
      else
        let taxa := _get_std_taxon s in
        let taxa := tokens taxa in
        traverse (λ t, parse_taxon (taxon_str t) false) taxa
  end.

Definition parse_taxa_ids (taxa : option string) : outcome (list taxon) :=
  match taxa with
  | None => Return []
  | Some s =>
      if decide (s = "") then Return []
      else
        let taxa := _get_std_taxon s in
        let taxa := tokens taxa in
        traverse (λ t, parse_taxon (taxon_str t) true) taxa
  end.

(** [TaxonomyFactories.get_smart_taxonomy] is not in the sources. *)
Context {Taxonomy : Type}.
Variable get_smart_taxonomy :
  list taxon → list taxon → list taxon → bool → outcome Taxonomy.

Definition get_taxonomy (taxa forbid ancestors : option string)
    (local_only : bool) : outcome (option Taxonomy) :=
  match taxa with
  | None => Return None
  | Some s =>
      if decide (String.length s = 0%nat) then Return None
      else
        allow ← parse_taxa taxa;
        forbid ← parse_taxa forbid;
        ancestors ← parse_taxa_ids ancestors;
        taxonomy ← get_smart_taxonomy allow forbid ancestors local_only;
        Return (Some taxonomy)
  end.

End Taxa.

(** ** search/chembl/atc_search.py *)

(** [ChemblCompound], as far as [AtcSearch] reads it. *)
Record ChemblCompound : Set := mkCompound {
  chid : string;
  inchikey : string;
  name : string
}.

(** [Search._create_hit] is not in the sources: an [AtcHit] is represented
    by the keyword arguments [_code] creates it from. *)
Record AtcHit : Set := mkAtcHit {
  c_origin : string;
  c_matched : string;
  c_id : string;
  c_name : string;
  predicate : string;
  statement : string;
  object_id : option string;
  object_name : option string;
  level : Z
}.

(** [sorted(levels)] on a set of integers. *)
Definition sorted (levels : gset Z) : list Z := merge_sort Z.le (elements levels).

Section AtcSearch.

(** The ChEMBL API and the helpers around it are not in the sources and
    are taken as functions that return: the record of an ATC class
    ([NestedDotDict(self.api.atc_class.get(atc))]) with its [get], the
    compound record of a lookup with its optional list of ATC codes, and
    [str.lower]. *)
Variable dots : Type.
Variable atc_class_get : string → dots.
Variable dots_get : dots → string → option string.
Variable compound_dict : Type.
Variable get_compound_dot_dict : string → compound_dict.
Variable compound_dot_dict_to_obj : compound_dict → ChemblCompound.
Variable atc_classifications : compound_dict → option (list string).
Variable lower : string → string.

(** [self.levels] *)
Variable levels : gset Z.

Definition _code (lookup : string) (compound : ChemblCompound) (d : dots)
    (level : Z) : AtcHit :=
  let object_name :=
    if decide (level = 5%Z) then Some (lower (name compound))
    else dots_get d ("level" +:+ pretty level +:+ "_description") in
  {| c_origin := lookup;
     c_matched := inchikey compound;
     c_id := chid compound;
     c_name := name compound;
     predicate := "atc:level" +:+ pretty level;
     statement := "has ATC level " +:+ pretty level +:+ " code";
     object_id := dots_get d ("level" +:+ pretty level);
     object_name := object_name;
     level := level |}.

Definition process (lookup : string) (compound : ChemblCompound) (atc : string)
    : list AtcHit :=
  let d := atc_class_get atc in
  foldl (λ found level, found ++ [_code lookup compound d level]) [] (sorted levels).

Definition find (lookup : string) : list AtcHit :=
  let ch := get_compound_dot_dict lookup in
  let compound := compound_dot_dict_to_obj ch in
  match atc_classifications ch with
  | Some codes =>
      foldl (λ hits atc, hits ++ process lookup compound atc) [] codes
  | None => []
  end.

End AtcSearch.

(** * Properties *)

(** ** Arithmetic of the error monad *)

Lemma truediv_nonzero (x y : R) : y ≠ 0 → truediv x y = Ok (x / y).
Proof. intros Hy. unfold truediv. destruct (Req_dec_T y 0); [lra | done]. Qed.

Lemma truediv_zero (x : R) : truediv x 0 = Err ZeroDivisionError.
Proof. unfold truediv. destruct (Req_dec_T 0 0); [done | lra]. Qed.

Lemma truediv_raises (x y : R) (e : exn) :
  truediv x y = Err e → e = ZeroDivisionError ∧ y = 0.
Proof. unfold truediv. destruct (Req_dec_T y 0); naive_solver. Qed.

Lemma math_sqrt_nonneg (x : R) : 0 <= x → math_sqrt x = Ok (sqrt x).
Proof. intros Hx. unfold math_sqrt. destruct (Rlt_dec x 0); [lra | done]. Qed.

Lemma sqrt_mult_self (a : R) : 0 <= a → sqrt (a * a) = a.
Proof. intros Ha. by apply sqrt_square. Qed.

(** Geometric mean below arithmetic mean, in the form the bounds need. *)
Lemma sqrt_mult_le_mean (a b : R) :
  0 <= a → 0 <= b → 2 * sqrt (a * b) <= a + b.
Proof.
  intros Ha Hb.
  rewrite sqrt_mult by done.
  pose proof (sqrt_pos a) as Hx. pose proof (sqrt_pos b) as Hy.
  pose proof (sqrt_sqrt a Ha) as Hxx. pose proof (sqrt_sqrt b Hb) as Hyy.
  pose proof (Rle_0_sqr (sqrt a - sqrt b)) as Hsq. unfold Rsqr in Hsq.
  lra.
Qed.

Lemma ratio_in_unit_interval (w v : R) :
  0 <= w → w <= v → 0 < v → 0 <= w / v <= 1.
Proof.
  intros Hw Hwv Hv.
  assert (Hq : w = w / v * v) by (field; lra).
  destruct (Rle_dec 0 (w / v)), (Rle_dec (w / v) 1); try lra; nra.
Qed.

Section Scores.

Variable elle : R → R.

Lemma wedge_value (ca cb : R) :
  0 <= elle ca → 0 <= elle cb →
  _wedge elle ca cb = Ok (sqrt (elle ca * elle cb)).
Proof. intros Ha Hb. unfold _wedge. apply math_sqrt_nonneg. nra. Qed.

Lemma vee_value (ca cb : R) :
  0 <= elle ca → 0 <= elle cb →
  _vee elle ca cb = Ok (elle ca + elle cb - sqrt (elle ca * elle cb)).
Proof.
  intros Ha Hb. unfold _vee. rewrite math_sqrt_nonneg by nra. done.
Qed.

(** With positive weights the per-pair score is a number. *)
Lemma pair_score_value (ca cb : R) :
  0 < elle ca → 0 < elle cb →
  pair_score elle (ca, cb) =
    Ok (sqrt (elle ca * elle cb) / (elle ca + elle cb - sqrt (elle ca * elle cb))).
Proof.
  intros Ha Hb. unfold pair_score. simpl.
  rewrite wedge_value, vee_value by lra. simpl.
  apply truediv_nonzero.
  assert (2 * sqrt (elle ca * elle cb) <= elle ca + elle cb)
    by (apply sqrt_mult_le_mean; lra).
  assert (0 < sqrt (elle ca * elle cb)) by (apply sqrt_lt_R0; nra).
  lra.
Qed.

(** With non-negative weights the only exception of a per-pair score is
    the division by zero. *)
Lemma pair_score_raises (p : R * R) (e : exn) :
  (∀ c, 0 <= elle c) →
  pair_score elle p = Err e → e = ZeroDivisionError.
Proof.
  intros Hnn. destruct p as [ca cb]. unfold pair_score. simpl.
  rewrite wedge_value, vee_value by done. simpl.
  intros He. by apply truediv_raises in He as [-> _].
Qed.

Lemma pair_score_self (c : R) :
  0 < elle c → pair_score elle (c, c) = Ok 1.
Proof.
  intros Hc. rewrite pair_score_value by done.
  rewrite sqrt_mult_self by lra. f_equal. field. lra.
Qed.

End Scores.

Lemma elle_ramp_nonneg (c : R) : 0 <= elle_ramp c.
Proof. unfold elle_ramp. apply Rmax_l. Qed.

Lemma elle_ramp_pos (c : R) : 0 < c → elle_ramp c = c.
Proof. intros Hc. unfold elle_ramp. apply Rmax_right. lra. Qed.

Lemma elle_ramp_zero : elle_ramp 0 = 0.
Proof. unfold elle_ramp. apply Rmax_left. lra. Qed.

(** ** The per-pair score at equal weights *)

(** C3, as stated, fails: with equal weights the score is [1], above
    [0.5]. *)
Lemma pair_score_above_half :
  0 < 1 ∧ (∀ c, 0 < c → 0 < elle_ramp c) ∧
  ∃ r, pair_score elle_ramp (1, 1) = Ok r ∧ ¬ (0 <= r <= 1 / 2).
Proof.
  split; [lra |]. split.
  - intros c Hc. rewrite elle_ramp_pos; done.
  - exists 1. split; [| lra].
    apply pair_score_self. rewrite elle_ramp_pos; lra.
Qed.

(** ** Comprehensions and means *)

Section Comprehension.

Context {A B : Type}.
Implicit Types (f g : A → res B) (l : list A).

Lemma comprehension_ok f l ys :
  comprehension f l = Ok ys ↔ Forall2 (λ x y, f x = Ok y) l ys.
Proof.
  revert ys. induction l as [| x l IH]; intros ys; simpl.
  - split; [intros [= <-]; constructor | by inversion 1].
  - destruct (f x) as [y | e] eqn:Hx; simpl.
    + destruct (comprehension f l) as [ys' | e] eqn:Hl; simpl.
      * split.
        -- intros [= <-]. constructor; [done | by apply IH].
        -- inversion 1 as [| ? y' ? ys'' Hy Hys]; subst.
           apply IH in Hys. congruence.
      * split; [done |].
        inversion 1 as [| ? y' ? ys'' Hy Hys]; subst.
        apply IH in Hys. done.
    + split; [done |]. inversion 1; congruence.
Qed.

Lemma comprehension_raises f l e :
  comprehension f l = Err e → ∃ x, x ∈ l ∧ f x = Err e.
Proof.
  induction l as [| x l IH]; simpl; [done |].
  destruct (f x) as [y | e'] eqn:Hx; simpl.
  - destruct (comprehension f l) as [ys | e'']; simpl; [done |].
    intros [= ->]. destruct IH as (x' & Hin & Hx'); [done |].
    exists x'. split; [by right | done].
  - intros [= ->]. exists x. split; [by left | done].
Qed.

(** If every exception of [f] is [e0], a raising element makes the whole
    comprehension raise [e0], wherever it stands. *)
Lemma comprehension_raises_at f l e0 x :
  (∀ x' e, f x' = Err e → e = e0) →
  x ∈ l → f x = Err e0 → comprehension f l = Err e0.
Proof.
  intros Hone Hin Hx.
  destruct (comprehension f l) as [ys | e] eqn:Hl.
  - apply comprehension_ok in Hl.
    apply list_elem_of_lookup in Hin as [i Hi].
    destruct (Forall2_lookup_l _ _ _ _ _ Hl Hi) as (y & _ & Hy). congruence.
  - apply comprehension_raises in Hl as (x' & _ & Hx').
    by rewrite (Hone _ _ Hx').
Qed.

Lemma comprehension_total f l :
  (∀ x, x ∈ l → ∃ y, f x = Ok y) → ∃ ys, comprehension f l = Ok ys.
Proof.
  intros Hall.
  destruct (comprehension f l) as [ys | e] eqn:Hl; [by eexists |].
  apply comprehension_raises in Hl as (x & Hin & Hx).
  destruct (Hall x Hin) as [y Hy]. congruence.
Qed.

Lemma comprehension_ext f g l :
  (∀ x, x ∈ l → f x = g x) → comprehension f l = comprehension g l.
Proof.
  induction l as [| x l IH]; intros Heq; simpl; [done |].
  rewrite (Heq x) by left. rewrite IH; [done |].
  intros x' Hin. apply Heq. by right.
Qed.

Lemma comprehension_singleton f x :
  comprehension f [x] = y ← f x; Ok [y].
Proof. simpl. by destruct (f x). Qed.

Lemma comprehension_length f l ys :
  comprehension f l = Ok ys → length ys = length l.
Proof. intros H. apply comprehension_ok in H. symmetry. by eapply Forall2_length. Qed.

End Comprehension.

Lemma comprehension_perm {A B : Type} (f : A → res B) (e0 : exn) (l l' : list A) :
  (∀ x e, f x = Err e → e = e0) →
  l ≡ₚ l' → same_up_to_order (comprehension f l) (comprehension f l').
Proof.
  intros Hone Hperm.
  destruct (comprehension f l) as [ys | e] eqn:Hl,
           (comprehension f l') as [ys' | e'] eqn:Hl'; simpl.
  - apply comprehension_ok in Hl, Hl'.
    revert ys ys' Hl Hl'.
    induction Hperm as [| x l l' Hp IH | x y l | l l' l'' Hp1 IH1 Hp2 IH2];
      intros ys ys' Hl Hl'.
    + inversion Hl; inversion Hl'; subst. done.
    + inversion Hl as [| ? y ? ys0 Hy Hys]; subst.
      inversion Hl' as [| ? y' ? ys0' Hy' Hys']; subst.
      assert (y = y') as <- by congruence. constructor. by apply IH.
    + inversion Hl as [| ? a ? ys0 Ha Hys]; subst.
      inversion Hys as [| ? b ? ys1 Hb Hys1]; subst.
      inversion Hl' as [| ? a' ? ys0' Ha' Hys']; subst.
      inversion Hys' as [| ? b' ? ys1' Hb' Hys1']; subst.
      assert (a' = b) as -> by congruence.
      assert (b' = a) as -> by congruence.
      assert (ys1 = ys1') as <-.
      { apply comprehension_ok in Hys1, Hys1'. congruence. }
      apply perm_swap.
    + destruct (comprehension f l') as [ys0 | e] eqn:Hmid.
      * apply comprehension_ok in Hmid.
        etrans; [by apply IH1 | by apply IH2].
      * apply comprehension_raises in Hmid as (x & Hin & Hx).
        rewrite <- Hp1 in Hin.
        apply list_elem_of_lookup in Hin as [i Hi].
        destruct (Forall2_lookup_l _ _ _ _ _ Hl Hi) as (y & _ & Hy). congruence.
  - apply comprehension_ok in Hl.
    apply comprehension_raises in Hl' as (x & Hin & Hx).
    rewrite <- Hperm in Hin.
    apply list_elem_of_lookup in Hin as [i Hi].
    destruct (Forall2_lookup_l _ _ _ _ _ Hl Hi) as (y & _ & Hy). congruence.
  - apply comprehension_ok in Hl'.
    apply comprehension_raises in Hl as (x & Hin & Hx).
    rewrite Hperm in Hin.
    apply list_elem_of_lookup in Hin as [i Hi].
    destruct (Forall2_lookup_l _ _ _ _ _ Hl' Hi) as (y & _ & Hy). congruence.
  - apply comprehension_raises in Hl as (x & _ & Hx).
    apply comprehension_raises in Hl' as (x' & _ & Hx').
    rewrite (Hone _ _ Hx), (Hone _ _ Hx'). done.
Qed.

Lemma fsum_perm (vs vs' : list R) : vs ≡ₚ vs' → fsum vs = fsum vs'.
Proof.
  unfold fsum. induction 1; simpl; [done | congruence | lra | congruence].
Qed.

Lemma len_nonzero (vs : list R) : vs ≠ [] → len vs ≠ 0.
Proof.
  intros Hne. unfold len. apply not_0_INR.
  destruct vs; [done | simpl; lia].
Qed.

Lemma mean_perm (vs vs' : list R) :
  vs ≡ₚ vs' → truediv (fsum vs) (len vs) = truediv (fsum vs') (len vs').
Proof.
  intros Hp. unfold len.
  by rewrite (fsum_perm _ _ Hp), (Permutation_length Hp).
Qed.

Lemma mean_empty : truediv (fsum []) (len []) = Err ZeroDivisionError.
Proof. apply truediv_zero. Qed.

Lemma mean_nonempty (vs : list R) :
  vs ≠ [] → truediv (fsum vs) (len vs) = Ok (fsum vs / len vs).
Proof. intros Hne. apply truediv_nonzero. by apply len_nonzero. Qed.

Lemma mean_singleton (v : R) : truediv (fsum [v]) (len [v]) = Ok v.
Proof.
  rewrite mean_nonempty by done. f_equal.
  unfold fsum, len. simpl. field.
Qed.

(** ** The source-level function and the cross-source aggregator *)

Section Aggregator.

Variable elle : R → R.
Variable weights_of_pairs : list Hit → list Hit → list (R * R).

Lemma jx_no_pairs (hits1 hits2 : list Hit) :
  weights_of_pairs hits1 hits2 = [] →
  _jx elle weights_of_pairs hits1 hits2 = Err ZeroDivisionError.
Proof. intros Hnil. unfold _jx. rewrite Hnil. simpl. apply mean_empty. Qed.

Lemma jx_raises (hits1 hits2 : list Hit) (e : exn) :
  (∀ c, 0 <= elle c) →
  _jx elle weights_of_pairs hits1 hits2 = Err e → e = ZeroDivisionError.
Proof.
  intros Hnn. unfold _jx.
  destruct (comprehension _ _) as [vs | e'] eqn:Hc; simpl.
  - intros He. by apply truediv_raises in He as [-> _].
  - intros [= ->]. apply comprehension_raises in Hc as (p & _ & Hp).
    by eapply pair_score_raises.
Qed.

(** Positive weights on at least one pair give a source score. *)
Lemma jx_total (hits1 hits2 : list Hit) :
  weights_of_pairs hits1 hits2 ≠ [] →
  (∀ p, p ∈ weights_of_pairs hits1 hits2 → 0 < elle p.1 ∧ 0 < elle p.2) →
  ∃ v, _jx elle weights_of_pairs hits1 hits2 = Ok v.
Proof.
  intros Hne Hpos. unfold _jx.
  destruct (comprehension_total (pair_score elle) (weights_of_pairs hits1 hits2))
    as [vs Hvs].
  { intros [ca cb] Hin. destruct (Hpos _ Hin). eexists.
    by apply pair_score_value. }
  rewrite Hvs. simpl. eexists. apply mean_nonempty.
  apply comprehension_length in Hvs. intros ->.
  destruct (weights_of_pairs hits1 hits2); done.
Qed.

Lemma jx_perm (hits1 hits2 hits1' hits2' : list Hit) :
  (∀ c, 0 <= elle c) →
  weights_of_pairs hits1 hits2 ≡ₚ weights_of_pairs hits1' hits2' →
  _jx elle weights_of_pairs hits1 hits2 = _jx elle weights_of_pairs hits1' hits2'.
Proof.
  intros Hnn Hp. unfold _jx.
  pose proof (comprehension_perm (pair_score elle) ZeroDivisionError _ _
                (λ p e, pair_score_raises elle p e Hnn) Hp) as Hsame.
  destruct (comprehension _ (weights_of_pairs hits1 hits2)),
           (comprehension _ (weights_of_pairs hits1' hits2'));
    simpl in *; try done; [by apply mean_perm | by subst].
Qed.

Lemma j_prime_no_shared_source (hits1 hits2 : list Hit) :
  sources_of hits1 ∩ sources_of hits2 = ∅ →
  _j_prime elle weights_of_pairs hits1 hits2 = Ok NaN.
Proof.
  intros Hdisj. unfold _j_prime. rewrite Hdisj.
  rewrite decide_True; [done | apply size_empty].
Qed.

Lemma j_prime_shared_source (hits1 hits2 : list Hit) :
  sources_of hits1 ∩ sources_of hits2 ≠ ∅ →
  _j_prime elle weights_of_pairs hits1 hits2 =
    _j_prime_over elle weights_of_pairs
      (elements (sources_of hits1 ∩ sources_of hits2)) hits1.
Proof.
  intros Hne. unfold _j_prime.
  rewrite decide_False; [done |]. intros Hsz.
  by apply size_empty_iff, leibniz_equiv in Hsz.
Qed.

Lemma j_prime_over_not_nan (order : list string) (hits1 : list Hit) :
  _j_prime_over elle weights_of_pairs order hits1 ≠ Ok NaN.
Proof.
  unfold _j_prime_over.
  destruct (comprehension _ _) as [vs | e]; simpl; [| done].
  destruct (truediv _ _); done.
Qed.

Lemma j_prime_over_raises (order : list string) (hits1 : list Hit) (e : exn) :
  (∀ c, 0 <= elle c) →
  _j_prime_over elle weights_of_pairs order hits1 = Err e →
  e = ZeroDivisionError.
Proof.
  intros Hnn. unfold _j_prime_over.
  destruct (comprehension _ _) as [vs | e'] eqn:Hc; simpl.
  - destruct (truediv _ _) as [r | e'] eqn:Hd; simpl; [done |].
    intros [= ->]. by apply truediv_raises in Hd as [-> _].
  - intros [= ->]. apply comprehension_raises in Hc as (s & _ & Hs).
    by eapply jx_raises.
Qed.

(** The order in which the set of shared sources is iterated does not
    matter. *)
Lemma j_prime_over_perm (order order' : list string) (hits1 : list Hit) :
  (∀ c, 0 <= elle c) → order ≡ₚ order' →
  _j_prime_over elle weights_of_pairs order hits1 =
  _j_prime_over elle weights_of_pairs order' hits1.
Proof.
  intros Hnn Hp. unfold _j_prime_over.
  pose proof (comprehension_perm
    (λ source, _jx elle weights_of_pairs (of_source source hits1) (of_source source hits1))
    ZeroDivisionError _ _ (λ s e, jx_raises _ _ e Hnn) Hp) as Hsame.
  destruct (comprehension _ order), (comprehension _ order');
    simpl in *; try done; [by rewrite (mean_perm _ _ Hsame) | by subst].
Qed.

(** A single shared source: the score of the pair is the score of that
    source. *)
Lemma j_prime_one_source (hits1 hits2 : list Hit) (source : string) (v : R) :
  sources_of hits1 ∩ sources_of hits2 = {[source]} →
  _jx elle weights_of_pairs (of_source source hits1) (of_source source hits1) = Ok v →
  _j_prime elle weights_of_pairs hits1 hits2 = Ok (Num v).
Proof.
  intros Hs Hv.
  rewrite j_prime_shared_source by (rewrite Hs; apply non_empty_singleton_L).
  rewrite Hs, elements_singleton. unfold _j_prime_over.
  rewrite comprehension_singleton, Hv.
  change ((r ← truediv (fsum [v]) (len [v]); Ok (Num r)) = Ok (Num v)).
  by rewrite mean_singleton.
Qed.

End Aggregator.

(** ** The extractor stand-in *)

Lemma matched_pairs_single (matched : Hit → Hit → bool) (a b : Hit) :
  matched_pairs matched [a] [b] =
    if matched a b then [(confidence a, confidence b)] else [].
Proof.
  unfold matched_pairs. cbn.
  destruct (matched a b); [rewrite decide_True by done | rewrite decide_False by done];
    done.
Qed.

Lemma elle_ramp_1 : elle_ramp 1 = 1.
Proof. apply elle_ramp_pos. lra. Qed.

Lemma elle_ramp_4 : elle_ramp 4 = 4.
Proof. apply elle_ramp_pos. lra. Qed.

Lemma pair_score_ramp_1_4 : pair_score elle_ramp (1, 4) = Ok (2 / 3).
Proof.
  rewrite pair_score_value by (rewrite ?elle_ramp_1, ?elle_ramp_4; lra).
  rewrite elle_ramp_1, elle_ramp_4.
  replace (1 * 4) with (2 * 2) by lra. rewrite sqrt_mult_self by lra.
  f_equal. lra.
Qed.

Lemma pair_score_ramp_4_1 : pair_score elle_ramp (4, 1) = Ok (2 / 3).
Proof.
  rewrite pair_score_value by (rewrite ?elle_ramp_1, ?elle_ramp_4; lra).
  rewrite elle_ramp_1, elle_ramp_4.
  replace (4 * 1) with (2 * 2) by lra. rewrite sqrt_mult_self by lra.
  f_equal. lra.
Qed.

Lemma pair_score_ramp_1_1 : pair_score elle_ramp (1, 1) = Ok 1.
Proof. apply pair_score_self. rewrite elle_ramp_1. lra. Qed.

Lemma pair_score_ramp_4_4 : pair_score elle_ramp (4, 4) = Ok 1.
Proof. apply pair_score_self. rewrite elle_ramp_4. lra. Qed.

(** One hit compared with itself under the same-claim policy. *)
Lemma jx_ramp_one_hit :
  _jx elle_ramp (matched_pairs same_claim) [hit_A_X] [hit_A_X] = Ok 1.
Proof.
  unfold _jx.
  change (matched_pairs same_claim [hit_A_X] [hit_A_X]) with [(1, 1)].
  rewrite comprehension_singleton, pair_score_ramp_1_1.
  apply mean_singleton.
Qed.

(** ** Claims about the cross-source aggregator *)

(** C9. The second argument of [_j_prime] influences the result only
    through its set of data sources: two second arguments with the same set
    of sources give the same result, whatever their hits are. *)
Theorem j_prime_second_argument_only_sources
    (elle : R → R) (weights_of_pairs : list Hit → list Hit → list (R * R))
    (hits1 hits2 hits2' : list Hit) :
  sources_of hits2 = sources_of hits2' →
  _j_prime elle weights_of_pairs hits1 hits2 =
  _j_prime elle weights_of_pairs hits1 hits2'.
Proof. intros Hsrc. unfold _j_prime. by rewrite Hsrc. Qed.

Lemma j_prime_second_argument_only_sources_witness :
  _j_prime elle_ramp (matched_pairs same_claim) [hit_A_X] [hit_B_X] =
  _j_prime elle_ramp (matched_pairs same_claim) [hit_A_X] [hit_C_X; hit_A_X4].
Proof.
  apply (j_prime_second_argument_only_sources elle_ramp (matched_pairs same_claim)
           [hit_A_X] [hit_B_X] [hit_C_X; hit_A_X4]).
  reflexivity.
Defined.

(** C2, as stated, fails: for equal confidences [_vee] is the weight
    itself, not twice the weight, so the per-pair score is [1]; in the
    scenario of one hit each from source X with confidence 1.0 the
    concordance is [1], not [0.5]. *)
Lemma equal_confidences_score_not_half :
  0 < elle_ramp 1 ∧
  _vee elle_ramp 1 1 ≠ Ok (2 * elle_ramp 1) ∧
  pair_score elle_ramp (1, 1) ≠ Ok (1 / 2) ∧
  _j_prime elle_ramp (matched_pairs same_claim) [hit_A_X] [hit_B_X]
    ≠ Ok (Num (1 / 2)).
Proof.
  split_and!.
  - rewrite elle_ramp_1. lra.
  - rewrite vee_value by apply elle_ramp_nonneg.
    rewrite sqrt_mult_self by apply elle_ramp_nonneg.
    rewrite elle_ramp_1. intros [= H]. lra.
  - rewrite pair_score_ramp_1_1. intros [= H]. lra.
  - rewrite (j_prime_one_source _ _ _ _ "X" 1); [| reflexivity | apply jx_ramp_one_hit].
    intros [= H]. lra.
Qed.

Lemma bind_singleton_fmap {A B : Type} (f : A → B) (l : list A) :
  l ≫= (λ x, [f x]) = f <$> l.
Proof. induction l as [| x l IH]; [done |]. cbn. by rewrite IH. Qed.

Lemma matched_pairs_cons_l (matched : Hit → Hit → bool) (x : Hit) (a b : list Hit) :
  matched_pairs matched (x :: a) b =
    ((λ h, (confidence x, confidence h)) <$> filter (λ h, matched x h = true) b)
    ++ matched_pairs matched a b.
Proof. unfold matched_pairs. cbn. by rewrite bind_singleton_fmap. Qed.

Lemma matched_pairs_nil_r (matched : Hit → Hit → bool) (b : list Hit) :
  matched_pairs matched b [] = [].
Proof.
  induction b as [| y b IH]; [done |].
  rewrite matched_pairs_cons_l, IH. done.
Qed.

Lemma matched_pairs_cons_r (matched : Hit → Hit → bool) (x : Hit) (a b : list Hit) :
  matched_pairs matched b (x :: a) ≡ₚ
    ((λ h, (confidence h, confidence x)) <$> filter (λ h, matched h x = true) b)
    ++ matched_pairs matched b a.
Proof.
  induction b as [| y b IH]; [done |].
  rewrite !matched_pairs_cons_l, IH.
  rewrite (filter_cons (λ h, matched y h = true)), (filter_cons (λ h, matched h x = true)).
  destruct (decide (matched y x = true)); cbn;
    [apply perm_skip |]; apply Permutation_app_swap_app.
Qed.

Lemma matched_pairs_symmetric (matched : Hit → Hit → bool) :
  (∀ h h', matched h h' = matched h' h) →
  extractor_symmetric (matched_pairs matched).
Proof.
  intros Hsym a b. induction a as [| x a IH].
  - by rewrite matched_pairs_nil_r.
  - rewrite matched_pairs_cons_r, matched_pairs_cons_l, fmap_app, IH.
    apply Permutation_app_tail.
    rewrite <- list_fmap_compose.
    rewrite (list_filter_iff (λ h, matched h x = true) (λ h, matched x h = true))
      by (intros h; by rewrite Hsym).
    done.
Qed.

(** Two hits of one entity with weights 1 and 4, compared with
    themselves: four pairs, scoring [1], [2/3], [2/3] and [1]. *)
Lemma jx_ramp_two_hits :
  _jx elle_ramp (matched_pairs same_claim)
      [hit_A_X; hit_A_X4] [hit_A_X; hit_A_X4] = Ok (5 / 6).
Proof.
  unfold _jx.
  change (matched_pairs same_claim [hit_A_X; hit_A_X4] [hit_A_X; hit_A_X4])
    with [(1, 1); (1, 4); (4, 1); (4, 4)].
  assert (Hvs : comprehension (pair_score elle_ramp) [(1, 1); (1, 4); (4, 1); (4, 4)]
                = Ok [1; 2 / 3; 2 / 3; 1]).
  { apply comprehension_ok.
    repeat constructor;
      [apply pair_score_ramp_1_1 | apply pair_score_ramp_1_4
       | apply pair_score_ramp_4_1 | apply pair_score_ramp_4_4]. }
  rewrite Hvs.
  change (truediv (fsum [1; 2 / 3; 2 / 3; 1]) (len [1; 2 / 3; 2 / 3; 1]) = Ok (5 / 6)).
  rewrite mean_nonempty by done. f_equal.
  unfold fsum, len. simpl. lra.
Qed.

(** C6.  Symmetry fails on the code: [_j_prime] scores the hits of its
    first argument against themselves, so exchanging the arguments
    exchanges whose hits are scored.  With the symmetric same-claim
    extractor, entity A (two hits of source X, weights 1 and 4) against
    entity B (one hit of source X, weight 1) scores [5/6], and B against A
    scores [1]. *)
Theorem j_prime_not_symmetric :
  extractor_symmetric (matched_pairs same_claim) ∧
  _j_prime elle_ramp (matched_pairs same_claim) [hit_A_X; hit_A_X4] [hit_B_X]
    = Ok (Num (5 / 6)) ∧
  _j_prime elle_ramp (matched_pairs same_claim) [hit_B_X] [hit_A_X; hit_A_X4]
    = Ok (Num 1) ∧
  _j_prime elle_ramp (matched_pairs same_claim) [hit_A_X; hit_A_X4] [hit_B_X]
    ≠ _j_prime elle_ramp (matched_pairs same_claim) [hit_B_X] [hit_A_X; hit_A_X4].
Proof.
  assert (HAB : _j_prime elle_ramp (matched_pairs same_claim)
                  [hit_A_X; hit_A_X4] [hit_B_X] = Ok (Num (5 / 6))).
  { apply (j_prime_one_source _ _ _ _ "X"); [reflexivity |].
    apply jx_ramp_two_hits. }
  assert (HBA : _j_prime elle_ramp (matched_pairs same_claim)
                  [hit_B_X] [hit_A_X; hit_A_X4] = Ok (Num 1)).
  { apply (j_prime_one_source _ _ _ _ "X"); [reflexivity |].
    change (of_source "X" [hit_B_X]) with [hit_B_X].
    unfold _jx.
    change (matched_pairs same_claim [hit_B_X] [hit_B_X]) with [(1, 1)].
    rewrite comprehension_singleton, pair_score_ramp_1_1.
    apply mean_singleton. }
  split_and!; [| done | done |].
  - apply matched_pairs_symmetric. intros h h'. unfold same_claim.
    apply bool_decide_ext. naive_solver.
  - rewrite HAB, HBA. intros [= H]. lra.
Qed.

(** ** Grouping *)

Lemma multidict_add_keys (k : string) (h : Hit) (d : list (string * list Hit)) :
  (multidict_add k h d).*1 = if decide (k ∈ d.*1) then d.*1 else d.*1 ++ [k].
Proof.
  induction d as [| [k' g] d IH]; csimpl; [done |].
  destruct (decide (k = k')) as [-> | Hne]; csimpl.
  - rewrite decide_True by left. done.
  - rewrite IH. destruct (decide (k ∈ d.*1)) as [Hin | Hnin].
    + rewrite decide_True by (by right). done.
    + rewrite decide_False; [done |]. by intros [? | ?]%elem_of_cons.
Qed.

Lemma multidict_add_NoDup (k : string) (h : Hit) (d : list (string * list Hit)) :
  NoDup d.*1 → NoDup (multidict_add k h d).*1.
Proof.
  intros Hnd. rewrite multidict_add_keys.
  destruct (decide (k ∈ d.*1)); [done |].
  apply NoDup_app. split_and!; [done | | apply NoDup_singleton].
  intros x Hx ->%list_elem_of_singleton. done.
Qed.

Lemma multidict_add_map (k : string) (h : Hit) (d : list (string * list Hit)) :
  (list_to_map (multidict_add k h d) : gmap string (list Hit)) =
    <[k := default [] ((list_to_map d : gmap string (list Hit)) !! k) ++ [h]]>
      (list_to_map d).
Proof.
  induction d as [| [k' g] d IH]; csimpl; [done |].
  destruct (decide (k = k')) as [-> | Hne]; csimpl.
  - by rewrite lookup_insert_eq, insert_insert_eq.
  - rewrite IH, lookup_insert_ne by done. by apply insert_insert_ne.
Qed.

Lemma hit_multidict_snoc (key : Hit → string) (hits : list Hit) (h : Hit) :
  hit_multidict key (hits ++ [h]) = multidict_add (key h) h (hit_multidict key hits).
Proof. unfold hit_multidict. by rewrite foldl_app. Qed.

Lemma hit_multidict_NoDup (key : Hit → string) (hits : list Hit) :
  NoDup (hit_multidict key hits).*1.
Proof.
  induction hits as [| h hits IH] using rev_ind; [constructor |].
  rewrite hit_multidict_snoc. by apply multidict_add_NoDup.
Qed.

Lemma hit_multidict_map (key : Hit → string) (hits : list Hit) (c : string) :
  (list_to_map (hit_multidict key hits) : gmap string (list Hit)) !! c =
    match filter (λ h, key h = c) hits with
    | [] => None
    | g => Some g
    end.
Proof.
  induction hits as [| h hits IH] using rev_ind; [done |].
  rewrite hit_multidict_snoc, multidict_add_map, filter_app.
  rewrite filter_cons, filter_nil.
  destruct (decide (key h = c)) as [<- | Hne].
  - rewrite lookup_insert_eq, IH.
    by destruct (filter (λ h0, key h0 = key h) hits).
  - rewrite lookup_insert_ne, IH, (right_id_L [] (++)) by done. done.
Qed.

(** The items of the grouping: each key that occurs, once, with the hits
    of that key in their order of occurrence. *)
Lemma hit_multidict_items (key : Hit → string) (hits : list Hit) (c : string)
    (g : list Hit) :
  (c, g) ∈ hit_multidict key hits ↔ g ≠ [] ∧ g = filter (λ h, key h = c) hits.
Proof.
  rewrite (elem_of_list_to_map (M := gmap string)) by apply hit_multidict_NoDup.
  rewrite hit_multidict_map.
  destruct (filter (λ h, key h = c) hits) as [| h l].
  - split; [done | by intros [? ->]].
  - split; [by intros [= <-] | by intros [_ ->]].
Qed.

Lemma zip_diag {A : Type} (l : list A) : zip l l = (λ x, (x, x)) <$> l.
Proof. induction l; simpl; [done | by f_equal]. Qed.

(** ** The matrix assembler *)

Section Assembler.

Variable elle : R → R.
Variable weights_of_pairs : list Hit → list Hit → list (R * R).

Lemma calc_loop_diag_raises (its : list (string * list Hit)) (data : matrix) (e : exn) :
  calc_loop elle weights_of_pairs (zip its its) data = Err e →
  ∃ c g, (c, g) ∈ its ∧ _j_prime elle weights_of_pairs g g = Err e.
Proof.
  revert data. induction its as [| [c0 g0] its IH]; intros data; simpl; [done |].
  destruct (_j_prime elle weights_of_pairs g0 g0) as [v | e'] eqn:Hv; simpl.
  - intros (c & g & Hin & Hg)%IH. exists c, g. split; [by right | done].
  - intros [= ->]. exists c0, g0. split; [by left | done].
Qed.

Lemma calc_loop_diag_ok (its : list (string * list Hit)) (data data' : matrix) :
  NoDup its.*1 →
  calc_loop elle weights_of_pairs (zip its its) data = Ok data' →
  (∀ c g, (c, g) ∈ its →
     ∃ v, _j_prime elle weights_of_pairs g g = Ok v ∧
          data' !! c = Some (<[c := v]> (data !!! c))) ∧
  (∀ c, c ∉ its.*1 → data' !! c = data !! c).
Proof.
  revert data. induction its as [| [c0 g0] its IH]; intros data Hnd; simpl.
  - intros [= <-]. split; [by intros c g ?%elem_of_nil | done].
  - apply NoDup_cons in Hnd as [Hc0 Hnd].
    destruct (_j_prime elle weights_of_pairs g0 g0) as [v0 | e] eqn:Hv0; simpl; [| done].
    intros Hloop. destruct (IH _ Hnd Hloop) as [Hin Hout]. split.
    + intros c g [[= -> ->] | Hcg]%elem_of_cons.
      * exists v0. split; [done |].
        rewrite (Hout c0 Hc0). unfold set_cell. by rewrite lookup_insert_eq.
      * destruct (Hin c g Hcg) as (v & Hv & Hc). exists v. split; [done |].
        rewrite Hc. unfold set_cell. rewrite lookup_total_insert_ne; [done |].
        intros <-. apply Hc0. apply list_elem_of_fmap. by exists (c0, g).
    + intros c Hc. apply not_elem_of_cons in Hc as [Hne Hc].
      rewrite (Hout c Hc). unfold set_cell. by rewrite lookup_insert_ne.
Qed.

Lemma calc_raises (hits : list Hit) (e : exn) :
  calc elle weights_of_pairs hits = Err e →
  ∃ c, of_entity c hits ≠ [] ∧
       _j_prime elle weights_of_pairs (of_entity c hits) (of_entity c hits) = Err e.
Proof.
  intros (c & g & [Hne ->]%hit_multidict_items & Hg)%calc_loop_diag_raises.
  by exists c.
Qed.

Lemma calc_ok (hits : list Hit) (data : matrix) (c : string) :
  calc elle weights_of_pairs hits = Ok data →
  (of_entity c hits = [] → data !! c = None) ∧
  (of_entity c hits ≠ [] →
     ∃ v, _j_prime elle weights_of_pairs (of_entity c hits) (of_entity c hits) = Ok v ∧
          data !! c = Some {[c := v]}).
Proof.
  intros Hcalc.
  apply calc_loop_diag_ok in Hcalc as [Hin Hout]; [| apply hit_multidict_NoDup].
  split.
  - intros Hnil. rewrite Hout; [done |].
    intros ((c' & g) & -> & [Hne ->]%hit_multidict_items)%list_elem_of_fmap. done.
  - intros Hne.
    destruct (Hin c (of_entity c hits)) as (v & Hv & Hc).
    { by apply hit_multidict_items. }
    exists v. split; [done |].
    rewrite Hc, lookup_total_empty. done.
Qed.

End Assembler.

Section Order.

Variable elle : R → R.
Variable weights_of_pairs : list Hit → list Hit → list (R * R).
Hypothesis elle_nonneg : ∀ c, 0 <= elle c.
Hypothesis extractor_perm : extractor_order_independent weights_of_pairs.

Lemma j_prime_raises (hits1 hits2 : list Hit) (e : exn) :
  _j_prime elle weights_of_pairs hits1 hits2 = Err e → e = ZeroDivisionError.
Proof.
  unfold _j_prime. destruct (decide _); [done |].
  by apply j_prime_over_raises.
Qed.

Lemma sources_of_perm (hits hits' : list Hit) :
  hits ≡ₚ hits' → sources_of hits = sources_of hits'.
Proof. intros Hp. unfold sources_of. by rewrite Hp. Qed.

Lemma j_prime_perm (hits1 hits1' hits2 hits2' : list Hit) :
  hits1 ≡ₚ hits1' → hits2 ≡ₚ hits2' →
  _j_prime elle weights_of_pairs hits1 hits2 =
  _j_prime elle weights_of_pairs hits1' hits2'.
Proof.
  intros Hp1 Hp2. unfold _j_prime.
  rewrite (sources_of_perm _ _ Hp1), (sources_of_perm _ _ Hp2).
  destruct (decide _); [done |].
  unfold _j_prime_over. erewrite comprehension_ext; [done |].
  intros source _. apply jx_perm; [done |].
  apply extractor_perm; unfold of_source; by rewrite Hp1.
Qed.

Lemma calc_perm (hits hits' : list Hit) :
  hits ≡ₚ hits' →
  calc elle weights_of_pairs hits = calc elle weights_of_pairs hits'.
Proof.
  intros Hp.
  assert (Hg : ∀ c, of_entity c hits ≡ₚ of_entity c hits')
    by (intros c; unfold of_entity; by rewrite Hp).
  assert (Hj : ∀ c,
    _j_prime elle weights_of_pairs (of_entity c hits) (of_entity c hits) =
    _j_prime elle weights_of_pairs (of_entity c hits') (of_entity c hits'))
    by (intros c; by apply j_prime_perm).
  assert (Hnil : ∀ c, of_entity c hits = [] ↔ of_entity c hits' = []).
  { intros c. split; intros Hc.
    - apply Permutation_nil. by rewrite <- Hg, Hc.
    - apply Permutation_nil. by rewrite Hg, Hc. }
  destruct (calc elle weights_of_pairs hits) as [data | e] eqn:Hc,
           (calc elle weights_of_pairs hits') as [data' | e'] eqn:Hc'.
  - f_equal. apply map_eq. intros c.
    destruct (calc_ok _ _ _ _ c Hc) as [Hn Hs], (calc_ok _ _ _ _ c Hc') as [Hn' Hs'].
    destruct (of_entity c hits) as [| h g] eqn:Hgc.
    + rewrite Hn by done. rewrite Hn'; [done |]. by apply Hnil.
    + destruct Hs as (v & Hv & ->); [done |].
      destruct Hs' as (v' & Hv' & ->); [rewrite <- Hnil, Hgc; done |].
      rewrite <- Hgc, Hj in Hv. congruence.
  - apply calc_raises in Hc' as (c & Hne & He).
    destruct (calc_ok _ _ _ _ c Hc) as [_ (v & Hv & _)]; [by rewrite Hnil |].
    rewrite Hj in Hv. congruence.
  - apply calc_raises in Hc as (c & Hne & He).
    destruct (calc_ok _ _ _ _ c Hc') as [_ (v & Hv & _)]; [by rewrite <- Hnil |].
    rewrite Hj in He. congruence.
  - apply calc_raises in Hc as (c & _ & He), Hc' as (c' & _ & He').
    apply j_prime_raises in He, He'. congruence.
Qed.

End Order.

Lemma matched_pairs_perm (matched : Hit → Hit → bool) :
  extractor_order_independent (matched_pairs matched).
Proof.
  intros a a' b b' Ha Hb. trans (matched_pairs matched a b').
  - clear Ha. induction a as [| x a IH]; [done |].
    rewrite !matched_pairs_cons_l, IH. by rewrite Hb.
  - clear Hb.
    induction Ha as [| x a a' _ IH | x y a | a a' a'' _ IH1 _ IH2].
    + done.
    + rewrite !matched_pairs_cons_l. by rewrite IH.
    + rewrite !matched_pairs_cons_l. apply Permutation_app_swap_app.
    + by rewrite IH1.
Qed.

(** ** Claims about the matrix assembler and the base class *)

(** The loop of [calc] pairs every item with itself, so only diagonal cells
    are ever written. *)
Lemma calc_off_diagonal_absent
    (elle : R → R) (weights_of_pairs : list Hit → list Hit → list (R * R))
    (hits : list Hit) (data : matrix) (c1 c2 : string) :
  calc elle weights_of_pairs hits = Ok data → c1 ≠ c2 → cell data c1 c2 = None.
Proof.
  intros Hcalc Hne. unfold cell.
  destruct (calc_ok _ _ _ _ c1 Hcalc) as [Hnil Hsome].
  destruct (of_entity c1 hits) as [| h g].
  - by rewrite Hnil.
  - destruct Hsome as (v & _ & ->); [done |]. simpl.
    by apply lookup_singleton_ne.
Qed.

(** C1.  On two hits of two entities A and B, [calc] returns a matrix with
    the two diagonal cells only: the cells (A,B) and (B,A) are never
    written, although [_j_prime] of A's hits and B's hits is the number 1.
    The claim that every cell (A,B) holds that score fails. *)
Theorem calc_two_entities_diagonal_only :
  ∃ data,
    calc elle_ramp (matched_pairs same_claim) [hit_A_X; hit_B_X] = Ok data ∧
    cell data "A" "A" = Some (Num 1) ∧ cell data "B" "B" = Some (Num 1) ∧
    cell data "A" "B" = None ∧ cell data "B" "A" = None ∧
    _j_prime elle_ramp (matched_pairs same_claim) [hit_A_X] [hit_B_X] = Ok (Num 1).
Proof.
  assert (HA : _j_prime elle_ramp (matched_pairs same_claim) [hit_A_X] [hit_A_X]
               = Ok (Num 1)).
  { apply (j_prime_one_source _ _ _ _ "X"); [reflexivity | apply jx_ramp_one_hit]. }
  assert (HB : _j_prime elle_ramp (matched_pairs same_claim) [hit_B_X] [hit_B_X]
               = Ok (Num 1)).
  { apply (j_prime_one_source _ _ _ _ "X"); [reflexivity |].
    change (of_source "X" [hit_B_X]) with [hit_B_X]. unfold _jx.
    change (matched_pairs same_claim [hit_B_X] [hit_B_X]) with [(1, 1)].
    rewrite comprehension_singleton, pair_score_ramp_1_1.
    apply mean_singleton. }
  assert (HAB : _j_prime elle_ramp (matched_pairs same_claim) [hit_A_X] [hit_B_X]
                = Ok (Num 1)).
  { apply (j_prime_one_source _ _ _ _ "X"); [reflexivity | apply jx_ramp_one_hit]. }
  exists (set_cell (set_cell ∅ "A" "A" (Num 1)) "B" "B" (Num 1)).
  split_and!; [| reflexivity | reflexivity | reflexivity | reflexivity | done].
  unfold calc.
  change (hit_multidict origin_inchikey [hit_A_X; hit_B_X])
    with [("A"%string, [hit_A_X]); ("B"%string, [hit_B_X])].
  simpl. rewrite HA. simpl. rewrite HB. done.
Qed.

(** C8.  When [elle] is non-negative and the extractor does not depend on
    the order of the hits it is given, listing the hits in another order
    changes neither the score of [_j_prime] nor the matrix of [calc]. *)
Theorem concordance_order_independent
    (elle : R → R) (weights_of_pairs : list Hit → list Hit → list (R * R))
    (hits hits' hits1 hits1' hits2 hits2' : list Hit) :
  (∀ c, 0 <= elle c) →
  extractor_order_independent weights_of_pairs →
  hits1 ≡ₚ hits1' → hits2 ≡ₚ hits2' → hits ≡ₚ hits' →
  _j_prime elle weights_of_pairs hits1 hits2 =
    _j_prime elle weights_of_pairs hits1' hits2' ∧
  calc elle weights_of_pairs hits = calc elle weights_of_pairs hits'.
Proof.
  intros Hnn Hext Hp1 Hp2 Hp. split.
  - by apply j_prime_perm.
  - by apply calc_perm.
Qed.

Lemma concordance_order_independent_witness :
  _j_prime elle_ramp (matched_pairs same_claim) [hit_A_X; hit_A_X4] [hit_B_X; hit_C_X] =
    _j_prime elle_ramp (matched_pairs same_claim) [hit_A_X4; hit_A_X] [hit_C_X; hit_B_X] ∧
  calc elle_ramp (matched_pairs same_claim) [hit_A_X; hit_B_X; hit_A_X4] =
    calc elle_ramp (matched_pairs same_claim) [hit_B_X; hit_A_X4; hit_A_X].
Proof.
  apply (concordance_order_independent elle_ramp (matched_pairs same_claim)).
  - apply elle_ramp_nonneg.
  - apply matched_pairs_perm.
  - apply perm_swap.
  - apply perm_swap.
  - apply (Permutation_cons_append [hit_B_X; hit_A_X4] hit_A_X).
Defined.

(** C10.  [MatrixCalculator.calc] raises [TypeError] on every input: the
    operand of [raise] calls the constant [NotImplemented], which is not
    callable.  It neither raises [NotImplementedError] nor returns. *)
Theorem base_calc_raises_type_error (hits : list Hit) :
  MatrixCalculator.calc hits = Err TypeError ∧
  MatrixCalculator.calc hits ≠ Err NotImplementedError ∧
  ∀ data, MatrixCalculator.calc hits ≠ Ok data.
Proof. split_and!; [reflexivity | discriminate | discriminate]. Qed.

(** By contrast, calling the exception class raises it. *)
Lemma filtration_apply_raises_not_implemented (df : list Hit) :
  Filtration.apply df = Err NotImplementedError.
Proof. reflexivity. Qed.

(** * Further properties of distances.py *)

(** ** Further properties of the per-pair score *)

Lemma pair_score_nonneg_form (elle : R → R) (ca cb : R) :
  0 <= elle ca → 0 <= elle cb →
  pair_score elle (ca, cb) =
    truediv (sqrt (elle ca * elle cb))
            (elle ca + elle cb - sqrt (elle ca * elle cb)).
Proof.
  intros Ha Hb. unfold pair_score. simpl.
  by rewrite wedge_value, vee_value.
Qed.

Lemma pair_score_swap (elle : R → R) (p : R * R) :
  pair_score elle (prod_swap p) = pair_score elle p.
Proof.
  destruct p as [ca cb]. unfold pair_score, _wedge, _vee. simpl.
  by rewrite (Rmult_comm (elle cb)), (Rplus_comm (elle cb)).
Qed.

Lemma fsum_bounds (lo hi : R) (vs : list R) :
  Forall (λ v, lo <= v <= hi) vs →
  len vs * lo <= fsum vs <= len vs * hi.
Proof.
  unfold len, fsum. induction 1 as [| v vs Hv _ IH].
  - simpl. lra.
  - rewrite length_cons, S_INR. simpl. lra.
Qed.

(** With a non-negative [elle], the per-pair score divides by zero exactly
    when both weights are zero. *)
Theorem pair_score_zero_division_iff_zero_weights (elle : R → R) (ca cb : R) :
  (∀ c, 0 <= elle c) →
  pair_score elle (ca, cb) = Err ZeroDivisionError ↔ elle ca = 0 ∧ elle cb = 0.
Proof.
  intros Hnn. rewrite pair_score_nonneg_form by done.
  pose proof (Hnn ca) as Ha. pose proof (Hnn cb) as Hb.
  pose proof (sqrt_mult_le_mean _ _ Ha Hb) as Hm.
  split.
  - intros [_ Hv]%truediv_raises. lra.
  - intros [-> ->]. rewrite Rmult_0_l, sqrt_0.
    replace (0 + 0 - 0) with 0 by lra. apply truediv_zero.
Qed.


Lemma comprehension_fmap {A B C : Type} (f : B → res C) (g : A → B) (l : list A) :
  comprehension f (g <$> l) = comprehension (f ∘ g) l.
Proof. induction l as [| x l IH]; [done |]. csimpl. by rewrite IH. Qed.

Lemma comprehension_Forall {A B : Type} (f : A → res B) (P : B → Prop)
    (l : list A) (ys : list B) :
  comprehension f l = Ok ys → (∀ x y, f x = Ok y → P y) → Forall P ys.
Proof.
  intros Hys HP. apply comprehension_ok in Hys.
  induction Hys as [| x y l ys Hy _ IH]; constructor; [by eapply HP | done].
Qed.

Section Bounds.

Variable elle : R → R.
Variable weights_of_pairs : list Hit → list Hit → list (R * R).
Hypothesis elle_nonneg : ∀ c, 0 <= elle c.

Lemma jx_swap (hits1 hits2 : list Hit) :
  extractor_symmetric weights_of_pairs →
  _jx elle weights_of_pairs hits1 hits2 = _jx elle weights_of_pairs hits2 hits1.
Proof.
  intros Hsym. unfold _jx.
  pose proof (comprehension_perm (pair_score elle) ZeroDivisionError _ _
                (λ p e, pair_score_raises elle p e elle_nonneg)
                (Hsym hits1 hits2)) as Hsame.
  rewrite comprehension_fmap in Hsame.
  rewrite (comprehension_ext (pair_score elle ∘ prod_swap) (pair_score elle))
    in Hsame by (intros p _; apply pair_score_swap).
  destruct (comprehension _ (weights_of_pairs hits1 hits2)),
           (comprehension _ (weights_of_pairs hits2 hits1));
    simpl in *; try done; [symmetry; by apply mean_perm | by subst].
Qed.

End Bounds.

Section Cells.

Variable elle : R → R.
Variable weights_of_pairs : list Hit → list Hit → list (R * R).

Lemma sources_of_nonempty (hits : list Hit) :
  hits ≠ [] → sources_of hits ∩ sources_of hits ≠ ∅.
Proof.
  destruct hits as [| h hits]; [done |]. intros _.
  rewrite (idemp_L (∩)). unfold sources_of. csimpl.
  apply (non_empty_inhabited_L (data_source h)). apply elem_of_union_l.
  by apply elem_of_singleton.
Qed.

Lemma j_prime_empty (hits : list Hit) :
  _j_prime elle weights_of_pairs [] hits = Ok NaN ∧
  _j_prime elle weights_of_pairs hits [] = Ok NaN.
Proof.
  split; apply j_prime_no_shared_source; unfold sources_of; csimpl.
  - apply (left_absorb_L ∅ (∩)).
  - apply (right_absorb_L ∅ (∩)).
Qed.

Lemma of_entity_nonempty (c : string) (hits : list Hit) :
  of_entity c hits ≠ [] ↔ c ∈ origin_inchikey <$> hits.
Proof.
  unfold of_entity. split.
  - intros Hne. destruct (filter _ hits) as [| h g] eqn:Hf; [done |].
    assert (Hin : h ∈ filter (λ h, origin_inchikey h = c) hits)
      by (rewrite Hf; left).
    apply list_elem_of_filter in Hin as [<- Hin].
    by apply list_elem_of_fmap_2.
  - intros (h & -> & Hin)%list_elem_of_fmap Hnil.
    assert (Hf : h ∈ filter (λ h', origin_inchikey h' = origin_inchikey h) hits)
      by (by apply list_elem_of_filter).
    rewrite Hnil in Hf. by apply elem_of_nil in Hf.
Qed.

Lemma calc_rows (hits : list Hit) (data : matrix) :
  calc elle weights_of_pairs hits = Ok data →
  dom data = list_to_set (origin_inchikey <$> hits) ∧
  ∀ c row, data !! c = Some row → dom row = {[c]}.
Proof.
  intros Hcalc. split.
  - apply set_eq. intros c. rewrite elem_of_dom, elem_of_list_to_set.
    rewrite <- of_entity_nonempty.
    destruct (calc_ok _ _ _ _ c Hcalc) as [Hnil Hsome]. split.
    + intros [row Hrow] Hempty. rewrite Hnil in Hrow; done.
    + intros Hne. destruct (Hsome Hne) as (v & _ & ->). by eexists.
  - intros c row Hrow.
    destruct (calc_ok _ _ _ _ c Hcalc) as [Hnil Hsome].
    destruct (of_entity c hits) as [| h g].
    + rewrite Hnil in Hrow; done.
    + destruct Hsome as (v & _ & Hc); [done |].
      rewrite Hc in Hrow. injection Hrow as <-. apply dom_singleton_L.
Qed.

Lemma calc_cell (hits : list Hit) (data : matrix) (c1 c2 : string) (v : pyfloat) :
  calc elle weights_of_pairs hits = Ok data →
  cell data c1 c2 = Some v →
  c1 = c2 ∧ c1 ∈ origin_inchikey <$> hits ∧
  _j_prime elle weights_of_pairs (of_entity c1 hits) (of_entity c1 hits) = Ok v.
Proof.
  intros Hcalc Hcell.
  destruct (decide (c1 = c2)) as [<- | Hne];
    [| by rewrite (calc_off_diagonal_absent _ _ _ _ _ _ Hcalc Hne) in Hcell].
  split; [done |].
  destruct (calc_ok _ _ _ _ c1 Hcalc) as [Hnil Hsome].
  unfold cell in Hcell.
  destruct (decide (of_entity c1 hits = [])) as [Hempty | Hnonempty].
  - rewrite Hnil in Hcell; done.
  - destruct (Hsome Hnonempty) as (v' & Hv' & Hc). rewrite Hc in Hcell.
    simpl in Hcell. rewrite lookup_singleton_eq in Hcell. injection Hcell as ->.
    split; [by apply of_entity_nonempty | done].
Qed.

End Cells.

Section Totality.

Variable elle : R → R.
Variable weights_of_pairs : list Hit → list Hit → list (R * R).

Lemma j_prime_total (hits1 hits2 : list Hit) :
  sources_of hits1 ∩ sources_of hits2 ≠ ∅ →
  (∀ source, source ∈ sources_of hits1 ∩ sources_of hits2 →
     scorable elle weights_of_pairs (of_source source hits1)) →
  ∃ r, _j_prime elle weights_of_pairs hits1 hits2 = Ok (Num r).
Proof.
  intros Hne Hsc. rewrite j_prime_shared_source by done.
  unfold _j_prime_over.
  destruct (comprehension_total
    (λ source, _jx elle weights_of_pairs (of_source source hits1) (of_source source hits1))
    (elements (sources_of hits1 ∩ sources_of hits2))) as [vs Hvs].
  { intros source Hin. apply elem_of_elements in Hin.
    destruct (Hsc source Hin) as [Hpairs Hpos]. by apply jx_total. }
  rewrite Hvs. simpl.
  rewrite mean_nonempty; [by eexists |].
  apply comprehension_length in Hvs. intros ->. simpl in Hvs.
  symmetry in Hvs. apply nil_length_inv, elements_empty_inv in Hvs.
  by apply leibniz_equiv in Hvs.
Qed.

Lemma calc_total (hits : list Hit) :
  (∀ c source,
     source ∈ sources_of (of_entity c hits) →
     scorable elle weights_of_pairs (of_source source (of_entity c hits))) →
  ∃ data, calc elle weights_of_pairs hits = Ok data.
Proof.
  intros Hsc.
  destruct (calc elle weights_of_pairs hits) as [data | e] eqn:Hcalc; [by eexists |].
  apply calc_raises in Hcalc as (c & Hne & He).
  destruct (j_prime_total (of_entity c hits) (of_entity c hits)) as [r Hr].
  - by apply sources_of_nonempty.
  - intros source Hin. rewrite (idemp_L (∩)) in Hin. by apply Hsc.
  - congruence.
Qed.

Lemma calc_raises_zero_division (hits : list Hit) (e : exn) :
  (∀ c, 0 <= elle c) →
  calc elle weights_of_pairs hits = Err e → e = ZeroDivisionError.
Proof.
  intros Hnn (c & _ & He)%calc_raises. by eapply j_prime_raises.
Qed.

Lemma j_prime_sources_covered (hits1 hits2 : list Hit) :
  sources_of hits1 ⊆ sources_of hits2 →
  _j_prime elle weights_of_pairs hits1 hits2 =
  _j_prime elle weights_of_pairs hits1 hits1.
Proof.
  intros Hsub. unfold _j_prime.
  rewrite (idemp_L (∩)).
  by replace (sources_of hits1 ∩ sources_of hits2) with (sources_of hits1)
    by (symmetry; by apply subseteq_intersection_1_L).
Qed.

End Totality.

Lemma j_prime_ramp_A_A :
  _j_prime elle_ramp (matched_pairs same_claim) [hit_A_X] [hit_A_X] = Ok (Num 1).
Proof.
  apply (j_prime_one_source _ _ _ _ "X"); [reflexivity | apply jx_ramp_one_hit].
Qed.

Lemma j_prime_ramp_B_B :
  _j_prime elle_ramp (matched_pairs same_claim) [hit_B_X] [hit_B_X] = Ok (Num 1).
Proof.
  apply (j_prime_one_source _ _ _ _ "X"); [reflexivity |].
  change (of_source "X" [hit_B_X]) with [hit_B_X]. unfold _jx.
  change (matched_pairs same_claim [hit_B_X] [hit_B_X]) with [(1, 1)].
  rewrite comprehension_singleton, pair_score_ramp_1_1.
  apply mean_singleton.
Qed.

Lemma calc_ramp_two_entities :
  calc elle_ramp (matched_pairs same_claim) [hit_A_X; hit_B_X]
    = Ok (set_cell (set_cell ∅ "A" "A" (Num 1)) "B" "B" (Num 1)).
Proof.
  unfold calc.
  change (hit_multidict origin_inchikey [hit_A_X; hit_B_X])
    with [("A"%string, [hit_A_X]); ("B"%string, [hit_B_X])].
  simpl. rewrite j_prime_ramp_A_A. simpl. rewrite j_prime_ramp_B_B. done.
Qed.

Lemma j_prime_ramp_cross_entity_raises :
  _j_prime elle_ramp (matched_pairs cross_entity) [hit_A_X] [hit_A_X]
    = Err ZeroDivisionError.
Proof.
  rewrite j_prime_shared_source by (by apply sources_of_nonempty).
  change (sources_of [hit_A_X] ∩ sources_of [hit_A_X]) with ({["X"]} : gset string).
  rewrite elements_singleton. unfold _j_prime_over.
  rewrite comprehension_singleton.
  change (of_source "X" [hit_A_X]) with [hit_A_X].
  by rewrite jx_no_pairs.
Qed.

Lemma calc_ramp_cross_entity_raises :
  calc elle_ramp (matched_pairs cross_entity) [hit_A_X] = Err ZeroDivisionError.
Proof.
  unfold calc.
  change (hit_multidict origin_inchikey [hit_A_X]) with [("A"%string, [hit_A_X])].
  simpl. by rewrite j_prime_ramp_cross_entity_raises.
Qed.

Lemma pair_score_zero_division_iff_zero_weights_witness :
  pair_score elle_ramp (0, 0) = Err ZeroDivisionError ↔
  elle_ramp 0 = 0 ∧ elle_ramp 0 = 0.
Proof.
  apply (pair_score_zero_division_iff_zero_weights elle_ramp 0 0).
  apply elle_ramp_nonneg.
Defined.

(** With a non-negative [elle] and a symmetric extractor, the source-level
    score [_jx] is symmetric in its two collections. *)
Theorem jx_symmetric
    (elle : R → R) (weights_of_pairs : list Hit → list Hit → list (R * R))
    (hits1 hits2 : list Hit) :
  (∀ c, 0 <= elle c) → extractor_symmetric weights_of_pairs →
  _jx elle weights_of_pairs hits1 hits2 = _jx elle weights_of_pairs hits2 hits1.
Proof. intros Hnn Hsym. by apply jx_swap. Qed.

Lemma same_claim_symmetric (h h' : Hit) : same_claim h h' = same_claim h' h.
Proof. unfold same_claim. apply bool_decide_ext. split; by intros ->. Qed.

Lemma jx_symmetric_witness :
  _jx elle_ramp (matched_pairs same_claim) [hit_A_X; hit_A_X4] [hit_B_X] =
  _jx elle_ramp (matched_pairs same_claim) [hit_B_X] [hit_A_X; hit_A_X4].
Proof.
  apply (jx_symmetric elle_ramp (matched_pairs same_claim)).
  - apply elle_ramp_nonneg.
  - apply matched_pairs_symmetric. apply same_claim_symmetric.
Defined.

(** With a non-negative [elle], the only exception that leaves [_jx],
    [_j_prime] or [calc] is [ZeroDivisionError]: no other exception is
    ever raised. *)
Theorem only_zero_division_raised
    (elle : R → R) (weights_of_pairs : list Hit → list Hit → list (R * R))
    (hits hits1 hits2 : list Hit) (e : exn) :
  (∀ c, 0 <= elle c) →
  e ≠ ZeroDivisionError →
  _jx elle weights_of_pairs hits1 hits2 ≠ Err e ∧
  _j_prime elle weights_of_pairs hits1 hits2 ≠ Err e ∧
  calc elle weights_of_pairs hits ≠ Err e.
Proof.
  intros Hnn Hne. split_and!; intros He; apply Hne.
  - by eapply jx_raises.
  - by eapply j_prime_raises.
  - by eapply calc_raises_zero_division.
Qed.

Lemma only_zero_division_raised_witness :
  _jx elle_ramp (matched_pairs cross_entity) [hit_A_X] [hit_B_X] ≠ Err ValueError ∧
  _j_prime elle_ramp (matched_pairs cross_entity) [hit_A_X] [hit_B_X] ≠ Err ValueError ∧
  calc elle_ramp (matched_pairs cross_entity) [hit_A_X; hit_B_X] ≠ Err ValueError.
Proof.
  apply (only_zero_division_raised elle_ramp (matched_pairs cross_entity)
           [hit_A_X; hit_B_X] [hit_A_X] [hit_B_X] ValueError).
  - apply elle_ramp_nonneg.
  - discriminate.
Defined.

(** The order in which the set of shared sources is iterated does not
    change the result of [_j_prime] (non-negative [elle]). *)
Theorem j_prime_source_order_irrelevant
    (elle : R → R) (weights_of_pairs : list Hit → list Hit → list (R * R))
    (hits1 hits2 : list Hit) (order : list string) :
  (∀ c, 0 <= elle c) →
  sources_of hits1 ∩ sources_of hits2 ≠ ∅ →
  order ≡ₚ elements (sources_of hits1 ∩ sources_of hits2) →
  _j_prime_over elle weights_of_pairs order hits1 =
  _j_prime elle weights_of_pairs hits1 hits2.
Proof.
  intros Hnn Hne Hp. rewrite j_prime_shared_source by done.
  by apply j_prime_over_perm.
Qed.

Lemma j_prime_source_order_irrelevant_witness :
  _j_prime_over elle_ramp (matched_pairs same_claim) ["Y"; "X"]%string
    [hit_A_X; hit_A_Y] =
  _j_prime elle_ramp (matched_pairs same_claim) [hit_A_X; hit_A_Y] [hit_B_Y; hit_B_X].
Proof.
  apply (j_prime_source_order_irrelevant elle_ramp (matched_pairs same_claim)
           [hit_A_X; hit_A_Y] [hit_B_Y; hit_B_X]).
  - apply elle_ramp_nonneg.
  - apply (non_empty_inhabited_L ("X" : string)). by vm_compute.
  - apply NoDup_Permutation.
    + apply NoDup_cons_2; [by intros [=]%list_elem_of_singleton | apply NoDup_singleton].
    + apply NoDup_elements.
    + intros s. rewrite elem_of_elements.
      unfold sources_of. csimpl.
      rewrite elem_of_intersection, !elem_of_union, !elem_of_singleton,
        !elem_of_cons, elem_of_nil.
      pose proof (not_elem_of_empty (C := gset string) s). tauto.
Defined.

(** An empty collection on either side gives NaN. *)
Theorem j_prime_empty_collection_nan
    (elle : R → R) (weights_of_pairs : list Hit → list Hit → list (R * R))
    (hits : list Hit) :
  _j_prime elle weights_of_pairs [] hits = Ok NaN ∧
  _j_prime elle weights_of_pairs hits [] = Ok NaN.
Proof. apply j_prime_empty. Qed.

(** When the second collection has every data source of the first, the
    score is the score of the first collection against itself. *)
Theorem j_prime_self_score_when_sources_covered
    (elle : R → R) (weights_of_pairs : list Hit → list Hit → list (R * R))
    (hits1 hits2 : list Hit) :
  sources_of hits1 ⊆ sources_of hits2 →
  _j_prime elle weights_of_pairs hits1 hits2 =
  _j_prime elle weights_of_pairs hits1 hits1.
Proof. apply j_prime_sources_covered. Qed.

Lemma sources_A_X_in_B_X_Y :
  sources_of [hit_A_X] ⊆ sources_of [hit_B_X; hit_B_Y].
Proof.
  intros s. unfold sources_of. csimpl.
  rewrite !elem_of_union, !elem_of_singleton. tauto.
Qed.

Lemma j_prime_self_score_when_sources_covered_witness :
  _j_prime elle_ramp (matched_pairs same_claim) [hit_A_X] [hit_B_X; hit_B_Y] =
  _j_prime elle_ramp (matched_pairs same_claim) [hit_A_X] [hit_A_X].
Proof.
  apply (j_prime_self_score_when_sources_covered elle_ramp
           (matched_pairs same_claim) [hit_A_X] [hit_B_X; hit_B_Y]).
  apply sources_A_X_in_B_X_Y.
Defined.

(** The rows of the matrix that [calc] returns are exactly the entities
    of the input, and each row has exactly one column, its own entity. *)
Theorem calc_rows_are_entities
    (elle : R → R) (weights_of_pairs : list Hit → list Hit → list (R * R))
    (hits : list Hit) (data : matrix) :
  calc elle weights_of_pairs hits = Ok data →
  dom data = list_to_set (origin_inchikey <$> hits) ∧
  ∀ c row, data !! c = Some row → dom row = {[c]}.
Proof. apply calc_rows. Qed.

Lemma calc_rows_are_entities_witness :
  dom (set_cell (set_cell ∅ "A" "A" (Num 1)) "B" "B" (Num 1))
    = list_to_set (origin_inchikey <$> [hit_A_X; hit_B_X]) ∧
  ∀ c row,
    set_cell (set_cell ∅ "A" "A" (Num 1)) "B" "B" (Num 1) !! c = Some row →
    dom row = {[c]}.
Proof.
  apply (calc_rows_are_entities elle_ramp (matched_pairs same_claim)
           [hit_A_X; hit_B_X]).
  apply calc_ramp_two_entities.
Defined.

(** Every cell that [calc] writes is a diagonal cell of an entity of the
    input, and it holds the score of the entity's hits against
    themselves. *)
Theorem calc_cell_is_diagonal_self_score
    (elle : R → R) (weights_of_pairs : list Hit → list Hit → list (R * R))
    (hits : list Hit) (data : matrix) (c1 c2 : string) (v : pyfloat) :
  calc elle weights_of_pairs hits = Ok data →
  cell data c1 c2 = Some v →
  c1 = c2 ∧ c1 ∈ origin_inchikey <$> hits ∧
  _j_prime elle weights_of_pairs (of_entity c1 hits) (of_entity c1 hits) = Ok v.
Proof. apply calc_cell. Qed.

Lemma calc_cell_is_diagonal_self_score_witness :
  ("A" : string) = "A" ∧ ("A" : string) ∈ origin_inchikey <$> [hit_A_X; hit_B_X] ∧
  _j_prime elle_ramp (matched_pairs same_claim)
    (of_entity "A" [hit_A_X; hit_B_X]) (of_entity "A" [hit_A_X; hit_B_X])
    = Ok (Num 1).
Proof.
  apply (calc_cell_is_diagonal_self_score elle_ramp (matched_pairs same_claim)
           [hit_A_X; hit_B_X]
           (set_cell (set_cell ∅ "A" "A" (Num 1)) "B" "B" (Num 1))).
  - apply calc_ramp_two_entities.
  - reflexivity.
Defined.

(** [calc] returns a matrix whenever every entity is scorable on each of
    its data sources (matched pairs exist and their weights are positive);
    in particular it returns on the empty input. *)
Theorem calc_returns_when_scorable
    (elle : R → R) (weights_of_pairs : list Hit → list Hit → list (R * R))
    (hits : list Hit) :
  (∀ c source,
     source ∈ sources_of (of_entity c hits) →
     scorable elle weights_of_pairs (of_source source (of_entity c hits))) →
  ∃ data, calc elle weights_of_pairs hits = Ok data.
Proof. apply calc_total. Qed.

Lemma scorable_ramp_one_hit (h : Hit) :
  confidence h = 1 → scorable elle_ramp (matched_pairs same_claim) [h].
Proof.
  intros Hc. unfold scorable. rewrite matched_pairs_single.
  unfold same_claim. rewrite bool_decide_eq_true_2 by done. rewrite Hc.
  split; [done |].
  intros p ->%list_elem_of_singleton. simpl. rewrite elle_ramp_1. lra.
Qed.

Lemma calc_returns_when_scorable_witness :
  ∃ data, calc elle_ramp (matched_pairs same_claim) [hit_A_X; hit_B_X] = Ok data.
Proof.
  apply (calc_returns_when_scorable elle_ramp (matched_pairs same_claim)
           [hit_A_X; hit_B_X]).
  intros c source. unfold of_entity. rewrite !filter_cons, filter_nil.
  destruct (decide (origin_inchikey hit_A_X = c)) as [<- | HA].
  - rewrite decide_False by done.
    change (sources_of [hit_A_X]) with ({["X"]} : gset string).
    intros ->%elem_of_singleton.
    change (of_source "X" [hit_A_X]) with [hit_A_X].
    by apply scorable_ramp_one_hit.
  - destruct (decide (origin_inchikey hit_B_X = c)) as [<- | HB].
    + change (sources_of [hit_B_X]) with ({["X"]} : gset string).
      intros ->%elem_of_singleton.
      change (of_source "X" [hit_B_X]) with [hit_B_X].
      by apply scorable_ramp_one_hit.
    + intros Hin. by apply not_elem_of_empty in Hin.
Defined.

(** * distances.py with rounding

    The numerical claims, in the embedding [Rounded]. *)

(** ** Error analysis of one per-pair score *)

Lemma eps_small : 0 < eps <= / 1000.
Proof. unfold eps. lra. Qed.

Lemma range_facts :
  0 < tiny ∧ 0 < weight_lo ∧ weight_lo <= 1 ∧ 1 <= weight_hi ∧
  64 * tiny * weight_hi <= weight_lo ∧
  16 * tiny <= weight_lo * weight_lo ∧
  16 * weight_hi * weight_hi <= huge ∧
  16 * 2 ^ 53 <= huge ∧
  16 * tiny <= weight_lo ∧ 16 * weight_hi <= huge.
Proof. unfold tiny, weight_lo, weight_hi, huge. lra. Qed.

Lemma sq_le_inv (x y : R) : 0 <= x → 0 <= y → x * x <= y * y → x <= y.
Proof. intros Hx Hy Hsq. destruct (Rle_dec x y); [done | nra]. Qed.

Lemma quotient_le (w v c : R) : 0 < v → w <= c * v → w / v <= c.
Proof.
  intros Hv Hw. assert (Hq : w = w / v * v) by (field; lra).
  destruct (Rle_dec (w / v) c); [done | nra].
Qed.

Lemma quotient_ge (w v c : R) : 0 < v → c * v <= w → c <= w / v.
Proof.
  intros Hv Hw. assert (Hq : w = w / v * v) by (field; lra).
  destruct (Rle_dec c (w / v)); [done | nra].
Qed.

Section Analysis.

Variable rnd : R → R.
Hypothesis Hrnd : rounding rnd.

Lemma rnd_bounds (x : R) :
  tiny <= x <= huge → x * (1 - eps) <= rnd x <= x * (1 + eps).
Proof.
  intros Hx. destruct range_facts as (Ht & _).
  destruct Hrnd as (Hrel & _).
  assert (Hn : normal x) by (unfold normal; rewrite Rabs_pos_eq by lra; done).
  specialize (Hrel x Hn). rewrite (Rabs_pos_eq x) in Hrel by lra.
  unfold Rabs in Hrel. destruct (Rcase_abs (rnd x - x)); lra.
Qed.

Section Pair.

Variable a : R.
Variable b : R.
Hypothesis Ha : in_range a.
Hypothesis Hb : in_range b.

Local Abbreviation g := (geometric a b).
Local Abbreviation P := (product_term rnd a b).
Local Abbreviation W := (wedge_term rnd a b).
Local Abbreviation S := (sum_term rnd a b).
Local Abbreviation V := (vee_term rnd a b).
Local Abbreviation Q := (score_term rnd a b).

Lemma pair_g : g * g = a * b ∧ weight_lo <= g <= weight_hi ∧ 2 * g <= a + b.
Proof.
  destruct range_facts as (Ht & Hlo & Hlo1 & Hhi1 & _).
  destruct Ha as [Ha1 Ha2], Hb as [Hb1 Hb2].
  assert (Hgg : g * g = a * b) by (apply sqrt_sqrt; nra).
  assert (Hg0 : 0 <= g) by apply sqrt_pos.
  split_and!; [done | | |].
  - apply sq_le_inv; [lra | done | nra].
  - apply sq_le_inv; [done | lra | nra].
  - apply sqrt_mult_le_mean; lra.
Qed.

Lemma pair_P : a * b * (1 - eps) <= P <= a * b * (1 + eps).
Proof.
  destruct range_facts as (Ht & Hlo & Hlo1 & Hhi1 & _ & Hll & Hhh & _).
  destruct Ha as [Ha1 Ha2], Hb as [Hb1 Hb2].
  apply rnd_bounds. split.
  - assert (weight_lo * weight_lo <= a * b) by (apply Rmult_le_compat; lra).
    assert (0 <= weight_lo * weight_lo) by (apply Rmult_le_pos; lra). lra.
  - assert (a * b <= weight_hi * weight_hi) by (apply Rmult_le_compat; lra).
    assert (0 <= weight_hi * weight_hi) by (apply Rmult_le_pos; lra). lra.
Qed.

Lemma pair_sqrt_P :
  sqrt P * sqrt P = P ∧ g * (1 - eps) <= sqrt P <= g * (1 + eps).
Proof.
  destruct eps_small as [Hu0 Hu1].
  destruct pair_g as (Hgg & [Hg1 Hg2] & _).
  destruct range_facts as (Ht & Hlo & _).
  destruct pair_P as [HP1 HP2]. rewrite <- Hgg in HP1, HP2.
  assert (Hg2' : 0 <= g * g) by nra.
  assert (HP0 : 0 <= P) by (clear - HP1 Hg2' Hu0 Hu1; nra).
  assert (Hrr : sqrt P * sqrt P = P) by (by apply sqrt_sqrt).
  assert (Hr0 : 0 <= sqrt P) by apply sqrt_pos.
  split_and!; [done | |].
  - apply sq_le_inv; [clear - Hg1 Hlo Hu0 Hu1; nra | done |].
    rewrite Hrr. clear - HP1 Hg2' Hu0 Hu1. nra.
  - apply sq_le_inv; [done | clear - Hg1 Hlo Hu0 Hu1; nra |].
    rewrite Hrr. clear - HP2 Hg2' Hu0 Hu1. nra.
Qed.

Lemma pair_W : g * (1 - 2 * eps) <= W <= g * (1 + 3 * eps).
Proof.
  destruct eps_small as [Hu0 Hu1].
  destruct pair_g as (_ & [Hg1 Hg2] & _).
  destruct range_facts as (Ht & Hlo & Hlo1 & Hhi1 & _ & _ & _ & _ & Htl & Hhh).
  destruct pair_sqrt_P as (_ & [Hr1 Hr2]).
  assert (Hr1' : weight_lo / 2 <= sqrt P) by (clear - Hr1 Hg1 Hlo Hu0 Hu1; nra).
  assert (Hr2' : sqrt P <= 2 * weight_hi) by (clear - Hr2 Hg1 Hg2 Hlo Hu0 Hu1; nra).
  assert (HW : sqrt P * (1 - eps) <= W <= sqrt P * (1 + eps)).
  { apply rnd_bounds. lra. }
  assert (Hg0 : 0 < g) by lra.
  clear - HW Hr1 Hr2 Hg0 Hu0 Hu1. nra.
Qed.

Lemma pair_S : (a + b) * (1 - eps) <= S <= (a + b) * (1 + eps).
Proof.
  destruct range_facts as (Ht & Hlo & Hlo1 & Hhi1 & _ & _ & _ & _ & Htl & Hhh).
  destruct Ha as [Ha1 Ha2], Hb as [Hb1 Hb2].
  apply rnd_bounds. lra.
Qed.

Lemma pair_D : g * (1 - 5 * eps) <= S - W <= (a + b) * (1 + eps).
Proof.
  destruct eps_small as [Hu0 Hu1].
  destruct pair_g as (_ & [Hg1 Hg2] & Hgm).
  destruct range_facts as (Ht & Hlo & _).
  destruct pair_W as [HW1 HW2]. destruct pair_S as [HS1 HS2].
  assert (Hg0 : 0 < g) by lra.
  split.
  - assert ((2 * g) * (1 - eps) <= (a + b) * (1 - eps))
      by (apply Rmult_le_compat_r; lra).
    lra.
  - assert (0 <= W) by (clear - HW1 Hg0 Hu0 Hu1; nra). lra.
Qed.

Lemma pair_V :
  (S - W) * (1 - eps) <= V <= (S - W) * (1 + eps) ∧
  g * (1 - 6 * eps) <= V <= (a + b) * (1 + 3 * eps).
Proof.
  destruct eps_small as [Hu0 Hu1].
  destruct pair_g as (_ & [Hg1 Hg2] & Hgm).
  destruct range_facts as (Ht & Hlo & Hlo1 & Hhi1 & _ & _ & _ & _ & Htl & Hhh).
  destruct Ha as [Ha1 Ha2], Hb as [Hb1 Hb2].
  destruct pair_D as [HD1 HD2].
  assert (Hg0 : 0 < g) by lra.
  assert (HD1' : weight_lo / 2 <= S - W) by (clear - HD1 Hg1 Hlo Hu0 Hu1; nra).
  assert (Hab : 0 < a + b <= 2 * weight_hi) by lra.
  assert (HD2' : S - W <= 4 * weight_hi) by (clear - HD2 Hab Hu0 Hu1; nra).
  assert (HV : (S - W) * (1 - eps) <= V <= (S - W) * (1 + eps)).
  { apply rnd_bounds. lra. }
  split; [done |]. split.
  - clear - HV HD1 Hg0 Hu0 Hu1. nra.
  - clear - HV HD2 Hab Hu0 Hu1. nra.
Qed.

Lemma pair_V_pos : 0 < V.
Proof.
  destruct eps_small as [Hu0 Hu1].
  destruct pair_g as (_ & [Hg1 Hg2] & _).
  destruct range_facts as (Ht & Hlo & _).
  destruct pair_V as (_ & [HV _]).
  assert (Hg0 : 0 < g) by lra. clear - HV Hg0 Hu0 Hu1. nra.
Qed.

Lemma pair_T :
  weight_lo / (8 * weight_hi) <= W / V <= 1 + 10 * eps.
Proof.
  destruct eps_small as [Hu0 Hu1].
  destruct pair_g as (_ & [Hg1 Hg2] & Hgm).
  destruct range_facts as (Ht & Hlo & Hlo1 & Hhi1 & _).
  destruct Ha as [Ha1 Ha2], Hb as [Hb1 Hb2].
  destruct pair_W as [HW1 HW2]. destruct pair_V as (_ & [HV1 HV2]).
  pose proof pair_V_pos as HV0.
  assert (Hg0 : 0 < g) by lra.
  split.
  - assert (Hab : 0 < a + b <= 2 * weight_hi) by lra.
    assert (HV4 : V <= 4 * weight_hi) by (clear - HV2 Hab Hu0 Hu1; nra).
    assert (HW2' : weight_lo / 2 <= W) by (clear - HW1 Hg1 Hlo Hu0 Hu1; nra).
    assert (Hc : weight_lo / (8 * weight_hi) * (8 * weight_hi) = weight_lo)
      by (field; lra).
    assert (Hc0 : 0 < weight_lo / (8 * weight_hi))
      by (apply Rdiv_lt_0_compat; lra).
    apply quotient_ge; [done |].
    assert (weight_lo / (8 * weight_hi) * V
            <= weight_lo / (8 * weight_hi) * (4 * weight_hi))
      by (apply Rmult_le_compat_l; lra).
    lra.
  - apply quotient_le; [done |].
    assert (Hk : 0 <= eps * (1 - 60 * eps)) by (clear - Hu0 Hu1; nra).
    assert (Hk' : 0 <= g * (eps * (1 - 60 * eps))) by (apply Rmult_le_pos; lra).
    assert (Hk'' : (1 + 10 * eps) * (g * (1 - 6 * eps)) - g * (1 + 3 * eps)
                   = g * (eps * (1 - 60 * eps))) by ring.
    assert (g * (1 + 3 * eps) <= (1 + 10 * eps) * (g * (1 - 6 * eps))) by lra.
    assert ((1 + 10 * eps) * (g * (1 - 6 * eps)) <= (1 + 10 * eps) * V)
      by (apply Rmult_le_compat_l; lra).
    lra.
Qed.

Lemma pair_Q :
  W / V * (1 - eps) <= Q <= W / V * (1 + eps) ∧
  weight_lo / (16 * weight_hi) <= Q <= 1 + 12 * eps.
Proof.
  destruct eps_small as [Hu0 Hu1].
  destruct range_facts as (Ht & Hlo & Hlo1 & Hhi1 & Hlh & _ & _ & Hbig & _).
  destruct pair_T as [HT1 HT2].
  assert (Hc8 : 8 * tiny <= weight_lo / (8 * weight_hi)).
  { apply quotient_ge; lra. }
  assert (HQ : W / V * (1 - eps) <= Q <= W / V * (1 + eps)).
  { apply rnd_bounds. lra. }
  split; [done |].
  assert (Hc' : weight_lo / (16 * weight_hi) = weight_lo / (8 * weight_hi) / 2)
    by (field; lra).
  rewrite Hc'. clear - HQ HT1 HT2 Hc8 Ht Hu0 Hu1. nra.
Qed.

Lemma pair_P_nonneg : 0 <= P.
Proof.
  destruct eps_small as [Hu0 Hu1].
  destruct pair_g as (Hgg & [Hg1 Hg2] & _).
  destruct range_facts as (Ht & Hlo & _).
  destruct pair_P as [HP1 _]. rewrite <- Hgg in HP1.
  assert (Hg2' : 0 <= g * g) by nra.
  clear - HP1 Hg2' Hu0 Hu1. nra.
Qed.

(** Equal weights: the score is within [12 * eps] of 1 and [_vee] within
    [6 * eps] of the weight, relatively. *)
Lemma pair_equal :
  a = b → a * (1 - 6 * eps) <= V <= a * (1 + 6 * eps) ∧ 1 - 12 * eps <= Q.
Proof.
  intros Hab.
  destruct eps_small as [Hu0 Hu1].
  destruct range_facts as (Ht & Hlo & Hlo1 & Hhi1 & _).
  destruct Ha as [Ha1 Ha2].
  assert (Hga : g = a).
  { unfold geometric. rewrite <- Hab. apply sqrt_square. lra. }
  destruct pair_W as [HW1 HW2]. destruct pair_S as [HS1 HS2].
  destruct pair_V as ([HV1 HV2] & [HV3 _]).
  destruct pair_Q as ([HQ1 _] & _).
  pose proof pair_V_pos as HV0.
  rewrite Hga in HW1, HW2, HV3.
  assert (Ha0 : 0 < a) by lra.
  assert (HS3 : S <= 2 * a * (1 + eps)).
  { apply (Rle_trans _ _ _ HS2). rewrite <- Hab. lra. }
  assert (HD : S - W <= a * (1 + 4 * eps)) by (clear - HS3 HW1 Ha0 Hu0 Hu1; nra).
  assert (HD0 : 0 <= S - W) by (clear - HV2 HV0 Hu0 Hu1; nra).
  assert (HV6 : V <= a * (1 + 6 * eps)).
  { assert ((S - W) * (1 + eps) <= a * (1 + 4 * eps) * (1 + eps))
      by (apply Rmult_le_compat_r; lra).
    assert (0 <= a * (eps * (1 - 4 * eps)))
      by (apply Rmult_le_pos; [lra | apply Rmult_le_pos; lra]).
    assert (a * (1 + 4 * eps) * (1 + eps) <= a * (1 + 6 * eps)) by lra.
    lra. }
  split; [lra |].
  assert (HT : 1 - 8 * eps <= W / V).
  { apply quotient_ge; [done |].
    assert ((1 - 8 * eps) * V <= (1 - 8 * eps) * (a * (1 + 6 * eps)))
      by (apply Rmult_le_compat_l; lra).
    assert (0 <= a * (eps * eps))
      by (apply Rmult_le_pos; [lra | apply Rmult_le_pos; lra]).
    assert ((1 - 8 * eps) * (a * (1 + 6 * eps)) <= a * (1 - 2 * eps)) by lra.
    lra. }
  assert ((1 - 8 * eps) * (1 - eps) <= W / V * (1 - eps))
    by (apply Rmult_le_compat_r; lra).
  assert (0 <= eps * eps) by (apply Rmult_le_pos; lra).
  assert (1 - 12 * eps <= (1 - 8 * eps) * (1 - eps)) by lra.
  lra.
Qed.

End Pair.

End Analysis.

(** ** The rounded per-pair score *)

Section RoundedScores.

Variable rnd : R → R.
Variable elle : R → R.
Hypothesis Hrnd : rounding rnd.

Lemma rounded_math_sqrt_nonneg (x : R) :
  0 <= x → Rounded.math_sqrt rnd x = Ok (rnd (sqrt x)).
Proof.
  intros Hx. unfold Rounded.math_sqrt. destruct (Rlt_dec x 0); [lra | done].
Qed.

Lemma rounded_truediv_nonzero (x y : R) :
  y ≠ 0 → Rounded.truediv rnd x y = Ok (rnd (x / y)).
Proof.
  intros Hy. unfold Rounded.truediv. destruct (Req_dec_T y 0); [lra | done].
Qed.

(** With weights in range every step of the per-pair score returns. *)
Lemma rounded_pair_score_value (ca cb : R) :
  in_range (elle ca) → in_range (elle cb) →
  let w := rnd (sqrt (rnd (elle ca * elle cb))) in
  let v := rnd (rnd (elle ca + elle cb) - w) in
  Rounded._wedge rnd elle ca cb = Ok w ∧
  Rounded._vee rnd elle ca cb = Ok v ∧
  0 < v ∧
  Rounded.pair_score rnd elle (ca, cb) = Ok (rnd (w / v)).
Proof.
  intros Ha Hb. simpl.
  pose proof (pair_P_nonneg rnd Hrnd _ _ Ha Hb) as HP.
  pose proof (pair_V_pos rnd Hrnd _ _ Ha Hb) as HV.
  unfold_terms.
  unfold Rounded.pair_score, Rounded._wedge, Rounded._vee. simpl.
  rewrite rounded_math_sqrt_nonneg by done. simpl.
  split_and!; [done | done | done |].
  apply rounded_truediv_nonzero. lra.
Qed.

Lemma rounded_pair_score_bounds (ca cb : R) :
  in_range (elle ca) → in_range (elle cb) →
  ∃ q, Rounded.pair_score rnd elle (ca, cb) = Ok q ∧ rnd q = q ∧
       weight_lo / (16 * weight_hi) <= q <= 1 + 12 * eps.
Proof.
  intros Ha Hb.
  destruct (rounded_pair_score_value ca cb Ha Hb) as (_ & _ & _ & Hq).
  eexists. split; [exact Hq |]. split.
  - destruct Hrnd as (_ & Hidem & _). apply Hidem.
  - pose proof (pair_Q rnd Hrnd _ _ Ha Hb) as [_ HQ]. by unfold_terms.
Qed.

End RoundedScores.

(** With the identity for [rnd], the embedding [Rounded] is the exact
    one. *)
Lemma rounded_id_pair_score (elle : R → R) (p : R * R) :
  Rounded.pair_score (λ x, x) elle p = pair_score elle p.
Proof. reflexivity. Qed.

Lemma rounded_id_jx (elle : R → R)
    (weights_of_pairs : list Hit → list Hit → list (R * R)) (hits1 hits2 : list Hit) :
  Rounded._jx (λ x, x) elle weights_of_pairs hits1 hits2 =
  _jx elle weights_of_pairs hits1 hits2.
Proof. reflexivity. Qed.

Lemma rounded_id_j_prime (elle : R → R)
    (weights_of_pairs : list Hit → list Hit → list (R * R)) (hits1 hits2 : list Hit) :
  Rounded._j_prime (λ x, x) elle weights_of_pairs hits1 hits2 =
  _j_prime elle weights_of_pairs hits1 hits2.
Proof. reflexivity. Qed.

Lemma rounding_id : rounding (λ x, x).
Proof.
  unfold rounding. split_and!; [| done | done | done | done].
  intros x _. rewrite Rminus_diag, Rabs_R0.
  destruct eps_small. apply Rmult_le_pos; [lra | apply Rabs_pos].
Qed.

Lemma in_range_1 : in_range 1.
Proof. unfold in_range, weight_lo, weight_hi. lra. Qed.

Lemma in_range_4 : in_range 4.
Proof. unfold in_range, weight_lo, weight_hi. lra. Qed.

(** ** Claims about the per-pair terms, with rounding *)

(** C3, amended.  For confidences whose weights [elle ca] and [elle cb]
    lie between 2^-500 and 2^500, with every operation rounded to binary64,
    [_wedge] and [_vee] return, [_vee] is above zero, and the per-pair
    score lies between 0 and [1 + 16 * eps], where [eps] is 2^-53: in the
    unit interval up to rounding, not in [0, 0.5]. *)
Theorem pair_score_near_unit_interval (rnd elle : R → R) (ca cb : R) :
  rounding rnd → in_range (elle ca) → in_range (elle cb) →
  ∃ w v q,
    Rounded._wedge rnd elle ca cb = Ok w ∧
    Rounded._vee rnd elle ca cb = Ok v ∧ 0 < v ∧
    Rounded.pair_score rnd elle (ca, cb) = Ok q ∧
    0 < q <= 1 + 16 * eps.
Proof.
  intros Hrnd Ha Hb.
  destruct (rounded_pair_score_value rnd elle Hrnd ca cb Ha Hb)
    as (Hw & Hv & Hv0 & Hq).
  do 3 eexists. split_and!; [exact Hw | exact Hv | lra | exact Hq | |].
  - pose proof (pair_Q rnd Hrnd _ _ Ha Hb) as (_ & [Hq1 _]). unfold_terms.
    destruct range_facts as (_ & Hlo & _ & Hhi & _).
    assert (0 < weight_lo / (16 * weight_hi)) by (apply Rdiv_lt_0_compat; lra).
    lra.
  - pose proof (pair_Q rnd Hrnd _ _ Ha Hb) as (_ & [_ Hq2]). unfold_terms.
    destruct eps_small. lra.
Qed.

Lemma pair_score_near_unit_interval_witness :
  ∃ w v q,
    Rounded._wedge (λ x, x) elle_ramp 1 4 = Ok w ∧
    Rounded._vee (λ x, x) elle_ramp 1 4 = Ok v ∧ 0 < v ∧
    Rounded.pair_score (λ x, x) elle_ramp (1, 4) = Ok q ∧
    0 < q <= 1 + 16 * eps.
Proof.
  apply (pair_score_near_unit_interval (λ x, x) elle_ramp 1 4).
  - apply rounding_id.
  - rewrite elle_ramp_1. apply in_range_1.
  - rewrite elle_ramp_4. apply in_range_4.
Defined.

(** ** C7: the weighted-AND term *)

Lemma rounded_wedge_zero (rnd elle : R → R) (ca cb : R) :
  rounding rnd → elle ca = 0 ∨ elle cb = 0 →
  Rounded._wedge rnd elle ca cb = Ok 0.
Proof.
  intros (_ & _ & H0 & _) Hz. unfold Rounded._wedge.
  replace (elle ca * elle cb) with 0 by (destruct Hz as [-> | ->]; lra).
  rewrite H0. rewrite rounded_math_sqrt_nonneg by lra.
  by rewrite sqrt_0, H0.
Qed.

(** C7, as stated, fails on floats: for the nearby weights
    [weight_a] and [weight_b], whose values are 4503599689104585 * 2^-52
    and 4503599689104592 * 2^-52, [_wedge] returns
    4503599689104589 * 2^-52, above their arithmetic mean; and for two
    weights 2^600 it returns infinity, above the mean 2^600. *)
Lemma wedge_above_mean :
  (∃ w, Binary64._wedge Binary64.elle_ramp weight_a weight_b = Ok w ∧
        Prim2SF (Binary64.elle_ramp weight_a)
          = S754_finite false 4503599689104585 (-52) ∧
        Prim2SF (Binary64.elle_ramp weight_b)
          = S754_finite false 4503599689104592 (-52) ∧
        Prim2SF w = S754_finite false 4503599689104589 (-52) ∧
        (4503599689104585 + 4503599689104592 < 2 * 4503599689104589)%Z) ∧
  (∃ w, Binary64._wedge Binary64.elle_ramp weight_big weight_big = Ok w ∧
        Prim2SF (Binary64.elle_ramp weight_big)
          = S754_finite false 4503599627370496 548 ∧
        Prim2SF w = S754_infinity false).
Proof.
  split.
  - eexists. split_and!; [vm_compute; reflexivity | reflexivity .. | lia].
  - eexists. split_and!; [vm_compute; reflexivity | reflexivity ..].
Qed.

(** C7, amended.  With every operation rounded to binary64 and [elle]
    non-negative with [elle 0 = 0]: [_wedge] is symmetric in its two
    confidences; it is [0] as soon as one of the two weights is [0], in
    particular when one confidence is [0]; and for weights between 2^-500
    and 2^500 it is positive and exceeds the arithmetic mean of the two
    weights by at most the factor [1 + 4 * eps], where [eps] is 2^-53. *)
Theorem wedge_symmetric_zero_near_mean (rnd elle : R → R) (ca cb : R) :
  rounding rnd → (∀ c, 0 <= elle c) → elle 0 = 0 →
  Rounded._wedge rnd elle ca cb = Rounded._wedge rnd elle cb ca ∧
  (elle ca = 0 ∨ elle cb = 0 → Rounded._wedge rnd elle ca cb = Ok 0) ∧
  Rounded._wedge rnd elle 0 cb = Ok 0 ∧ Rounded._wedge rnd elle ca 0 = Ok 0 ∧
  (in_range (elle ca) → in_range (elle cb) →
   ∃ w, Rounded._wedge rnd elle ca cb = Ok w ∧
        0 < w <= (elle ca + elle cb) / 2 * (1 + 4 * eps)).
Proof.
  intros Hrnd Hnn H0. split_and!.
  - unfold Rounded._wedge. by rewrite Rmult_comm.
  - by apply rounded_wedge_zero.
  - apply rounded_wedge_zero; [done | by left].
  - apply rounded_wedge_zero; [done | by right].
  - intros Ha Hb.
    destruct (rounded_pair_score_value rnd elle Hrnd ca cb Ha Hb) as (Hw & _).
    eexists. split; [exact Hw |].
    pose proof (pair_W rnd Hrnd _ _ Ha Hb) as [HW1 HW2].
    pose proof (pair_g _ _ Ha Hb) as (_ & [Hg1 Hg2] & Hg3).
    unfold_terms.
    destruct eps_small as [Hu0 Hu1].
    destruct range_facts as (_ & Hlo & _).
    set (g := sqrt (elle ca * elle cb)) in *.
    set (w := rnd (sqrt (rnd (elle ca * elle cb)))) in *.
    assert (0 < g * (1 - 2 * eps)) by (apply Rmult_lt_0_compat; lra).
    assert (g * (1 + 3 * eps) <= (elle ca + elle cb) / 2 * (1 + 3 * eps))
      by (apply Rmult_le_compat_r; lra).
    assert (0 <= (elle ca + elle cb) / 2 * eps)
      by (apply Rmult_le_pos; lra).
    lra.
Qed.

Lemma wedge_symmetric_zero_near_mean_witness :
  Rounded._wedge (λ x, x) elle_ramp 1 4 = Rounded._wedge (λ x, x) elle_ramp 4 1 ∧
  Rounded._wedge (λ x, x) elle_ramp 0 4 = Ok 0 ∧
  Rounded._wedge (λ x, x) elle_ramp 1 0 = Ok 0 ∧
  ∃ w, Rounded._wedge (λ x, x) elle_ramp 1 4 = Ok w ∧
       0 < w <= (elle_ramp 1 + elle_ramp 4) / 2 * (1 + 4 * eps).
Proof.
  destruct (wedge_symmetric_zero_near_mean (λ x, x) elle_ramp 1 4)
    as (Hsym & _ & Hl & Hr & Hmean).
  - apply rounding_id.
  - apply elle_ramp_nonneg.
  - apply elle_ramp_zero.
  - split_and!; [exact Hsym | exact Hl | exact Hr |].
    apply Hmean.
    + rewrite elle_ramp_1. apply in_range_1.
    + rewrite elle_ramp_4. apply in_range_4.
Defined.

(** ** C2: equal confidences *)

Section RoundedAggregator.

Variable rnd : R → R.
Variable elle : R → R.
Variable weights_of_pairs : list Hit → list Hit → list (R * R).
Hypothesis Hrnd : rounding rnd.

Lemma rounded_mean_empty :
  Rounded.truediv rnd (Rounded.fsum rnd []) (len []) = Err ZeroDivisionError.
Proof.
  unfold Rounded.truediv, len. simpl. destruct (Req_dec_T 0 0); [done | lra].
Qed.

(** The mean of one float is that float. *)
Lemma rounded_mean_singleton (v : R) :
  rnd v = v → Rounded.truediv rnd (Rounded.fsum rnd [v]) (len [v]) = Ok v.
Proof.
  intros Hv. unfold Rounded.fsum, len. simpl.
  rewrite Rplus_0_r, Hv. rewrite rounded_truediv_nonzero by lra.
  by rewrite Rdiv_1_r, Hv.
Qed.

Lemma rounded_j_prime_no_shared_source (hits1 hits2 : list Hit) :
  sources_of hits1 ∩ sources_of hits2 = ∅ →
  Rounded._j_prime rnd elle weights_of_pairs hits1 hits2 = Ok NaN.
Proof.
  intros Hs. unfold Rounded._j_prime. rewrite Hs.
  rewrite decide_True; [done | apply size_empty].
Qed.

Lemma rounded_j_prime_shared_source (hits1 hits2 : list Hit) :
  sources_of hits1 ∩ sources_of hits2 ≠ ∅ →
  Rounded._j_prime rnd elle weights_of_pairs hits1 hits2 =
  Rounded._j_prime_over rnd elle weights_of_pairs
    (elements (sources_of hits1 ∩ sources_of hits2)) hits1.
Proof.
  intros Hs. unfold Rounded._j_prime.
  rewrite decide_False; [done |].
  intros Hz. apply size_empty_inv in Hz. by apply leibniz_equiv in Hz.
Qed.

Lemma rounded_j_prime_over_not_nan (order : list string) (hits1 : list Hit) :
  Rounded._j_prime_over rnd elle weights_of_pairs order hits1 ≠ Ok NaN.
Proof.
  unfold Rounded._j_prime_over.
  destruct (comprehension _ _) as [vs | e]; simpl; [| done].
  destruct (Rounded.truediv _ _ _); done.
Qed.

Lemma rounded_j_prime_one_source (hits1 hits2 : list Hit) (source : string) (v : R) :
  sources_of hits1 ∩ sources_of hits2 = {[source]} →
  Rounded._jx rnd elle weights_of_pairs
    (of_source source hits1) (of_source source hits1) = Ok v →
  rnd v = v →
  Rounded._j_prime rnd elle weights_of_pairs hits1 hits2 = Ok (Num v).
Proof.
  intros Hs Hv Hfl.
  rewrite rounded_j_prime_shared_source by (rewrite Hs; apply non_empty_singleton_L).
  rewrite Hs, elements_singleton. unfold Rounded._j_prime_over.
  rewrite comprehension_singleton, Hv.
  change ((r ← Rounded.truediv rnd (Rounded.fsum rnd [v]) (len [v]); Ok (Num r))
          = Ok (Num v)).
  by rewrite rounded_mean_singleton.
Qed.

(** One matched pair: the per-source score is the per-pair score. *)
Lemma rounded_jx_one_pair (hits1 hits2 : list Hit) (p : R * R) (q : R) :
  weights_of_pairs hits1 hits2 = [p] →
  Rounded.pair_score rnd elle p = Ok q → rnd q = q →
  Rounded._jx rnd elle weights_of_pairs hits1 hits2 = Ok q.
Proof.
  intros Hp Hq Hfl. unfold Rounded._jx. rewrite Hp.
  rewrite comprehension_singleton, Hq.
  change (Rounded.truediv rnd (Rounded.fsum rnd [q]) (len [q]) = Ok q).
  by apply rounded_mean_singleton.
Qed.

(** A weight whose square and double are floats, paired with itself:
    nothing is rounded. *)
Lemma rounded_pair_score_exact (c : R) :
  exact_at rnd (elle c) →
  Rounded._vee rnd elle c c = Ok (elle c) ∧
  Rounded.pair_score rnd elle (c, c) = Ok 1.
Proof.
  intros (Hpos & He & Hsq & Hdbl).
  destruct Hrnd as (_ & _ & _ & H1 & _).
  assert (Hv : Rounded._vee rnd elle c c = Ok (elle c)).
  { unfold Rounded._vee. rewrite Hsq.
    rewrite rounded_math_sqrt_nonneg by nra.
    rewrite sqrt_square by lra. rewrite He. simpl. rewrite Hdbl.
    replace (elle c + elle c - elle c) with (elle c) by ring. by rewrite He. }
  split; [done |].
  unfold Rounded.pair_score. simpl. rewrite Hv.
  unfold Rounded._wedge. rewrite Hsq.
  rewrite rounded_math_sqrt_nonneg by nra.
  rewrite sqrt_square by lra. rewrite He. simpl.
  rewrite rounded_truediv_nonzero by lra.
  replace (elle c / elle c) with 1 by (field; lra). by rewrite H1.
Qed.

(** Equal weights in range: [_vee] is the weight and the score is 1, up
    to rounding. *)
Lemma rounded_pair_score_equal (c : R) :
  in_range (elle c) →
  ∃ v q,
    Rounded._vee rnd elle c c = Ok v ∧
    Rabs (v - elle c) <= 8 * eps * elle c ∧
    Rounded.pair_score rnd elle (c, c) = Ok q ∧ rnd q = q ∧
    Rabs (q - 1) <= 16 * eps.
Proof.
  intros Hc.
  destruct (rounded_pair_score_value rnd elle Hrnd c c Hc Hc) as (_ & Hv & _ & Hq).
  pose proof (pair_equal rnd Hrnd _ _ Hc Hc eq_refl) as ([HV1 HV2] & HQ1).
  pose proof (pair_Q rnd Hrnd _ _ Hc Hc) as (_ & [_ HQ2]).
  unfold_terms.
  destruct eps_small as [Hu0 Hu1].
  destruct range_facts as (_ & Hlo & _).
  destruct Hc as [Hc1 Hc2].
  do 2 eexists. split_and!; [exact Hv | | exact Hq | |].
  - assert (0 <= eps * elle c) by (apply Rmult_le_pos; lra).
    unfold Rabs. destruct (Rcase_abs _); lra.
  - destruct Hrnd as (_ & Hidem & _). apply Hidem.
  - unfold Rabs. destruct (Rcase_abs _); lra.
Qed.

End RoundedAggregator.

Lemma exact_at_id (e : R) : 0 < e → exact_at (λ x, x) e.
Proof. intros He. by unfold exact_at. Qed.

(** C2, amended.  With every operation rounded to binary64, for a
    confidence pair with [ca = cb]: when the weight lies between 2^-500 and
    2^500, [_vee] equals the weight and the per-pair score equals 1, up to
    rounding (relative error at most [8 * eps] and [16 * eps], [eps] being
    2^-53); when the weight is positive and its square and its double are
    floats, as for the weight 1.0, nothing is rounded: [_vee] is exactly
    the weight and the score exactly 1.  In the scenario where entity A
    has one hit from a source with confidence 1.0, matched to entity B's
    one hit from the same source with confidence 1.0 (each hit matching
    the other and itself), the concordance is 1 in the same two senses. *)
Theorem equal_confidences_score_near_one
    (rnd elle : R → R) (matched : Hit → Hit → bool) (c : R) (a b : Hit) :
  rounding rnd →
  data_source a = data_source b →
  confidence a = 1 → confidence b = 1 →
  matched a b = true → matched a a = true →
  (in_range (elle c) →
   ∃ v q,
     Rounded._vee rnd elle c c = Ok v ∧
     Rabs (v - elle c) <= 8 * eps * elle c ∧
     Rounded.pair_score rnd elle (c, c) = Ok q ∧
     Rabs (q - 1) <= 16 * eps) ∧
  (exact_at rnd (elle c) →
   Rounded._vee rnd elle c c = Ok (elle c) ∧
   Rounded.pair_score rnd elle (c, c) = Ok 1) ∧
  (in_range (elle 1) →
   ∃ r,
     Rounded._j_prime rnd elle (matched_pairs matched) [a] [b] = Ok (Num r) ∧
     Rabs (r - 1) <= 16 * eps) ∧
  (exact_at rnd (elle 1) →
   Rounded._j_prime rnd elle (matched_pairs matched) [a] [b] = Ok (Num 1)).
Proof.
  intros Hrnd Hsrc Hca Hcb Hab Haa.
  assert (Hshared : sources_of [a] ∩ sources_of [b] = {[data_source a]}).
  { unfold sources_of. simpl. rewrite <- Hsrc.
    by rewrite (right_id_L ∅ (∪)), (idemp_L (∩)). }
  assert (Hpairs : matched_pairs matched (of_source (data_source a) [a])
                     (of_source (data_source a) [a]) = [(1, 1)]).
  { unfold of_source. rewrite filter_cons_True by done. rewrite filter_nil.
    by rewrite matched_pairs_single, Haa, Hca. }
  split_and!.
  - intros Hc.
    destruct (rounded_pair_score_equal rnd elle Hrnd c Hc)
      as (v & q & Hv & Hvb & Hq & _ & Hqb).
    by exists v, q.
  - by apply rounded_pair_score_exact.
  - intros H1.
    destruct (rounded_pair_score_equal rnd elle Hrnd 1 H1)
      as (v & q & _ & _ & Hq & Hfl & Hqb).
    exists q. split; [| done].
    apply (rounded_j_prime_one_source rnd elle _ _ _ (data_source a));
      [done | | done].
    by apply (rounded_jx_one_pair rnd elle _ _ _ (1, 1)).
  - intros H1.
    destruct (rounded_pair_score_exact rnd elle Hrnd 1 H1) as [_ Hq].
    assert (Hfl : rnd 1 = 1) by (by destruct Hrnd as (_ & _ & _ & ? & _)).
    apply (rounded_j_prime_one_source rnd elle _ _ _ (data_source a));
      [done | | done].
    by apply (rounded_jx_one_pair rnd elle _ _ _ (1, 1)).
Qed.

Lemma equal_confidences_score_near_one_witness :
  (∃ v q,
     Rounded._vee (λ x, x) elle_ramp 4 4 = Ok v ∧
     Rabs (v - elle_ramp 4) <= 8 * eps * elle_ramp 4 ∧
     Rounded.pair_score (λ x, x) elle_ramp (4, 4) = Ok q ∧
     Rabs (q - 1) <= 16 * eps) ∧
  (Rounded._vee (λ x, x) elle_ramp 4 4 = Ok (elle_ramp 4) ∧
   Rounded.pair_score (λ x, x) elle_ramp (4, 4) = Ok 1) ∧
  Rounded._j_prime (λ x, x) elle_ramp (matched_pairs same_claim) [hit_A_X] [hit_B_X]
    = Ok (Num 1).
Proof.
  destruct (equal_confidences_score_near_one (λ x, x) elle_ramp same_claim 4
              hit_A_X hit_B_X) as (Hnear & Hexact & _ & Hscenario).
  - apply rounding_id.
  - reflexivity.
  - reflexivity.
  - reflexivity.
  - reflexivity.
  - reflexivity.
  - split; [| split].
    + apply Hnear. rewrite elle_ramp_4. apply in_range_4.
    + apply Hexact. apply exact_at_id. rewrite elle_ramp_4. lra.
    + apply Hscenario. apply exact_at_id. rewrite elle_ramp_1. lra.
Defined.

(** ** Means of rounded scores *)

Lemma comprehension_all {A B : Type} (f : A → res B) (P : B → Prop) (l : list A) :
  (∀ x, x ∈ l → ∃ y, f x = Ok y ∧ P y) →
  ∃ ys, comprehension f l = Ok ys ∧ Forall P ys ∧ length ys = length l.
Proof.
  induction l as [| x l IH]; intros Hall.
  - exists []. by split_and!.
  - destruct (Hall x) as (y & Hy & HPy); [by left |].
    destruct IH as (ys & Hys & HP & Hlen).
    { intros x' Hin. apply Hall. by right. }
    exists (y :: ys). simpl. rewrite Hy, Hys. simpl.
    split_and!; [done | by constructor | by rewrite Hlen].
Qed.

Section RoundedMeans.

Variable rnd : R → R.
Variable elle : R → R.
Variable weights_of_pairs : list Hit → list Hit → list (R * R).
Hypothesis Hrnd : rounding rnd.

(** The correctly rounded sum of at most 2^53 values between [lo] and
    [hi], divided by their number: within [3 * eps] of the interval. *)
Lemma rounded_mean_bounds (lo hi : R) (vs : list R) :
  vs ≠ [] → INR (length vs) <= 2 ^ 53 →
  Forall (λ v, lo <= v <= hi) vs →
  2 * tiny <= lo → hi <= 2 →
  ∃ m, Rounded.truediv rnd (Rounded.fsum rnd vs) (len vs) = Ok m ∧
       rnd m = m ∧ lo * (1 - 3 * eps) <= m <= hi * (1 + 3 * eps).
Proof.
  intros Hne Hcap Hall Hlo Hhi.
  destruct eps_small as [Hu0 Hu1].
  destruct range_facts as (Ht & _ & _ & _ & _ & _ & _ & Hhuge & _).
  pose proof (fsum_bounds _ _ _ Hall) as [Hs1 Hs2].
  assert (Hn : 1 <= len vs).
  { unfold len. destruct vs as [| v vs]; [done |].
    rewrite length_cons, S_INR. pose proof (pos_INR (length vs)). lra. }
  fold (len vs) in Hcap.
  assert (Hlohi : lo <= hi).
  { destruct vs as [| v vs]; [done |]. apply Forall_cons in Hall as [? _]. lra. }
  set (n := len vs) in *. set (s := fsum vs) in *.
  assert (Hnlo : lo <= n * lo).
  { assert (0 <= (n - 1) * lo) by (apply Rmult_le_pos; lra). lra. }
  assert (Hnhi : n * hi <= 2 ^ 53 * 2).
  { apply Rmult_le_compat; lra. }
  destruct (rnd_bounds rnd Hrnd s) as [HF1 HF2]; [lra |].
  assert (Hs0 : 0 < s) by lra.
  assert (HM1 : lo * (1 - eps) <= rnd s / n).
  { apply quotient_ge; [lra |].
    assert (n * lo * (1 - eps) <= s * (1 - eps))
      by (apply Rmult_le_compat_r; lra).
    lra. }
  assert (HM2 : rnd s / n <= hi * (1 + eps)).
  { apply quotient_le; [lra |].
    assert (s * (1 + eps) <= n * hi * (1 + eps))
      by (apply Rmult_le_compat_r; lra).
    lra. }
  assert (Hlo1 : tiny <= lo * (1 - eps)).
  { assert (0 <= lo * (/ 2 - eps)) by (apply Rmult_le_pos; lra). lra. }
  assert (Hhi1 : hi * (1 + eps) <= 4).
  { assert (hi * (1 + eps) <= 2 * (1 + eps))
      by (apply Rmult_le_compat_r; lra).
    lra. }
  destruct (rnd_bounds rnd Hrnd (rnd s / n)) as [HR1 HR2]; [lra |].
  exists (rnd (rnd s / n)). split_and!.
  - unfold Rounded.fsum. fold (fsum vs). fold s.
    apply rounded_truediv_nonzero. lra.
  - destruct Hrnd as (_ & Hidem & _). apply Hidem.
  - assert (lo * (1 - eps) * (1 - eps) <= rnd s / n * (1 - eps))
      by (apply Rmult_le_compat_r; lra).
    assert (0 <= lo * eps) by (apply Rmult_le_pos; lra).
    assert (0 <= lo * (eps * eps))
      by (apply Rmult_le_pos; [lra | apply Rmult_le_pos; lra]).
    lra.
  - assert (rnd s / n * (1 + eps) <= hi * (1 + eps) * (1 + eps))
      by (apply Rmult_le_compat_r; lra).
    assert (0 <= hi * (eps * (1 - eps)))
      by (apply Rmult_le_pos; [lra | apply Rmult_le_pos; lra]).
    lra.
Qed.

Lemma score_lo_facts : 0 < score_lo ∧ 16 * tiny <= score_lo.
Proof.
  assert (H : 0 < tiny ∧ 0 < weight_hi ∧ 16 * tiny * (64 * weight_hi) <= weight_lo)
    by (unfold tiny, weight_lo, weight_hi; lra).
  destruct H as (Ht & Hhi & H).
  assert (16 * tiny <= score_lo) by (apply quotient_ge; lra).
  lra.
Qed.

(** The per-source score of between 1 and 2^53 pairs of weights in
    range. *)
Lemma rounded_jx_bounds (hits1 hits2 : list Hit) :
  weights_of_pairs hits1 hits2 ≠ [] →
  INR (length (weights_of_pairs hits1 hits2)) <= 2 ^ 53 →
  (∀ p, p ∈ weights_of_pairs hits1 hits2 →
        in_range (elle p.1) ∧ in_range (elle p.2)) →
  ∃ v, Rounded._jx rnd elle weights_of_pairs hits1 hits2 = Ok v ∧
       rnd v = v ∧ 2 * score_lo <= v <= 1 + 16 * eps.
Proof.
  intros Hne Hcap Hin.
  destruct eps_small as [Hu0 Hu1].
  destruct range_facts as (Ht & Hlo & Hlo1 & Hhi1 & Hscale & _).
  destruct (comprehension_all (Rounded.pair_score rnd elle)
              (λ q, weight_lo / (16 * weight_hi) <= q <= 1 + 12 * eps)
              (weights_of_pairs hits1 hits2)) as (vs & Hvs & Hall & Hlen).
  { intros [ca cb] Hp. destruct (Hin _ Hp) as [Ha Hb]. simpl in Ha, Hb.
    destruct (rounded_pair_score_bounds rnd elle Hrnd ca cb Ha Hb)
      as (q & Hq & _ & Hqb).
    by exists q. }
  assert (Hq16 : weight_lo / (16 * weight_hi) = 4 * score_lo)
    by (unfold score_lo; field; lra).
  destruct score_lo_facts as [Hs0 Hs1].
  destruct (rounded_mean_bounds (weight_lo / (16 * weight_hi)) (1 + 12 * eps) vs)
    as (m & Hm & Hfl & Hm1 & Hm2).
  - intros ->. simpl in Hlen. symmetry in Hlen.
    by apply nil_length_inv in Hlen.
  - by rewrite Hlen.
  - done.
  - lra.
  - lra.
  - exists m. unfold Rounded._jx. rewrite Hvs. simpl.
    split_and!; [done | done | |].
    + rewrite Hq16 in Hm1.
      assert (0 <= score_lo * (1 - 6 * eps)) by (apply Rmult_le_pos; lra).
      lra.
    + assert (eps * eps <= eps * / 1000) by (apply Rmult_le_compat_l; lra).
      lra.
Qed.

(** The cross-source score of well-formed inputs. *)
Lemma rounded_j_prime_bounds (hits1 hits2 : list Hit) :
  well_formed elle weights_of_pairs hits1 hits2 →
  sources_of hits1 ∩ sources_of hits2 ≠ ∅ →
  ∃ r, Rounded._j_prime rnd elle weights_of_pairs hits1 hits2 = Ok (Num r) ∧
       score_lo <= r <= 1 + 32 * eps.
Proof.
  intros [Hcap Hwf] Hne.
  destruct eps_small as [Hu0 Hu1].
  destruct score_lo_facts as [Hs0 Hs1].
  rewrite rounded_j_prime_shared_source by done.
  unfold Rounded._j_prime_over.
  destruct (comprehension_all
              (λ source, Rounded._jx rnd elle weights_of_pairs
                           (of_source source hits1) (of_source source hits1))
              (λ v, 2 * score_lo <= v <= 1 + 16 * eps)
              (elements (sources_of hits1 ∩ sources_of hits2)))
    as (vs & Hvs & Hall & Hlen).
  { intros source Hin. apply elem_of_elements in Hin.
    destruct (Hwf source (of_source source hits1) (of_source source hits1) Hin)
      as (Hpairs & Hcount & Hrange); [by left | by left |].
    destruct (rounded_jx_bounds _ _ Hpairs Hcount Hrange) as (v & Hv & _ & Hvb).
    by exists v. }
  rewrite Hvs. simpl.
  destruct (rounded_mean_bounds (2 * score_lo) (1 + 16 * eps) vs)
    as (m & Hm & _ & Hm1 & Hm2).
  - intros ->. simpl in Hlen. symmetry in Hlen.
    apply nil_length_inv, elements_empty_inv in Hlen.
    by apply leibniz_equiv in Hlen.
  - rewrite Hlen. done.
  - done.
  - lra.
  - lra.
  - exists m. rewrite Hm. simpl. split_and!; [done | |].
    + assert (0 <= score_lo * (1 - 6 * eps)) by (apply Rmult_le_pos; lra).
      lra.
    + assert (eps * eps <= eps * / 1000) by (apply Rmult_le_compat_l; lra).
      lra.
Qed.

End RoundedMeans.

(** ** C4: no shared source *)

(** C4. With every operation rounded to binary64: [_j_prime] returns NaN,
    which is not the number 0, when the two collections share no data
    source; and on well-formed inputs (at most 2^53 shared sources, each
    with between 1 and 2^53 matched pairs whose weights lie between 2^-500
    and 2^500) it returns NaN in that case only, and with a shared source
    a number, which is positive and at most [1 + 32 * eps]. *)
Theorem j_prime_nan_exactly_without_shared_source
    (rnd elle : R → R) (weights_of_pairs : list Hit → list Hit → list (R * R))
    (hits1 hits2 : list Hit) :
  rounding rnd →
  (sources_of hits1 ∩ sources_of hits2 = ∅ →
     Rounded._j_prime rnd elle weights_of_pairs hits1 hits2 = Ok NaN ∧
     Rounded._j_prime rnd elle weights_of_pairs hits1 hits2 ≠ Ok (Num 0)) ∧
  (well_formed elle weights_of_pairs hits1 hits2 →
     (Rounded._j_prime rnd elle weights_of_pairs hits1 hits2 = Ok NaN ↔
      sources_of hits1 ∩ sources_of hits2 = ∅) ∧
     (sources_of hits1 ∩ sources_of hits2 ≠ ∅ →
      ∃ r, Rounded._j_prime rnd elle weights_of_pairs hits1 hits2 = Ok (Num r) ∧
           0 < r <= 1 + 32 * eps)).
Proof.
  intros Hrnd.
  assert (Hnum : well_formed elle weights_of_pairs hits1 hits2 →
                 sources_of hits1 ∩ sources_of hits2 ≠ ∅ →
                 ∃ r, Rounded._j_prime rnd elle weights_of_pairs hits1 hits2
                        = Ok (Num r) ∧ 0 < r <= 1 + 32 * eps).
  { intros Hwf Hne.
    destruct (rounded_j_prime_bounds rnd elle weights_of_pairs Hrnd _ _ Hwf Hne)
      as (r & Hr & Hr1 & Hr2).
    destruct score_lo_facts as [Hs0 _].
    exists r. split; [done | lra]. }
  split.
  - intros Hdisj. rewrite rounded_j_prime_no_shared_source by done. done.
  - intros Hwf. split; [split |].
    + intros Hnan.
      destruct (decide (sources_of hits1 ∩ sources_of hits2 = ∅)) as [| Hne]; [done |].
      destruct (Hnum Hwf Hne) as (r & Hr & _). congruence.
    + apply rounded_j_prime_no_shared_source.
    + by apply Hnum.
Qed.

Lemma well_formed_ramp_A_B :
  well_formed elle_ramp (matched_pairs same_claim) [hit_A_X] [hit_B_X].
Proof.
  split.
  - change (sources_of [hit_A_X] ∩ sources_of [hit_B_X]) with ({["X"]} : gset string).
    rewrite size_singleton. simpl. lra.
  - change (sources_of [hit_A_X] ∩ sources_of [hit_B_X]) with ({["X"]} : gset string).
    intros source x y ->%elem_of_singleton.
    change (of_source "X" [hit_A_X]) with [hit_A_X].
    change (of_source "X" [hit_B_X]) with [hit_B_X].
    rewrite !elem_of_cons, !elem_of_nil.
    assert (Hone : ∀ l : list (R * R), l = [(1, 1)] →
              l ≠ [] ∧ INR (length l) <= 2 ^ 53 ∧
              ∀ p, p ∈ l → in_range (elle_ramp p.1) ∧ in_range (elle_ramp p.2)).
    { intros l ->. split_and!; [done | simpl; lra |].
      intros p ->%list_elem_of_singleton. simpl. rewrite elle_ramp_1.
      split; apply in_range_1. }
    intros [-> | [-> | []]] [-> | [-> | []]]; by apply Hone.
Qed.

Lemma j_prime_nan_exactly_without_shared_source_witness :
  Rounded._j_prime (λ x, x) elle_ramp (matched_pairs same_claim) [hit_A_X] [hit_B_Y]
    = Ok NaN ∧
  ∃ r, Rounded._j_prime (λ x, x) elle_ramp (matched_pairs same_claim)
         [hit_A_X] [hit_B_X] = Ok (Num r) ∧
       0 < r <= 1 + 32 * eps.
Proof.
  split.
  - destruct (j_prime_nan_exactly_without_shared_source (λ x, x) elle_ramp
                (matched_pairs same_claim) [hit_A_X] [hit_B_Y] rounding_id)
      as [Hnan _].
    apply Hnan. reflexivity.
  - destruct (j_prime_nan_exactly_without_shared_source (λ x, x) elle_ramp
                (matched_pairs same_claim) [hit_A_X] [hit_B_X] rounding_id)
      as [_ Hnum].
    apply Hnum.
    + apply well_formed_ramp_A_B.
    + change (sources_of [hit_A_X] ∩ sources_of [hit_B_X]) with ({["X"]} : gset string).
      apply non_empty_singleton_L.
Defined.

(** ** C5: a shared source without matched pairs *)

Section RoundedExceptions.

Variable rnd : R → R.
Variable elle : R → R.
Variable weights_of_pairs : list Hit → list Hit → list (R * R).
Hypothesis Hrnd : rounding rnd.
Hypothesis elle_nonneg : ∀ c, 0 <= elle c.

Lemma rounded_truediv_raises (x y : R) (e : exn) :
  Rounded.truediv rnd x y = Err e → e = ZeroDivisionError ∧ y = 0.
Proof.
  unfold Rounded.truediv. destruct (Req_dec_T y 0); [| done].
  by intros [= <-].
Qed.

Lemma rnd_nonneg (x : R) : 0 <= x → 0 <= rnd x.
Proof.
  intros Hx. destruct Hrnd as (_ & _ & H0 & _ & Hmono).
  rewrite <- H0. by apply Hmono.
Qed.

Lemma rounded_pair_score_raises (p : R * R) (e : exn) :
  Rounded.pair_score rnd elle p = Err e → e = ZeroDivisionError.
Proof.
  destruct p as [ca cb].
  unfold Rounded.pair_score, Rounded._wedge, Rounded._vee. simpl.
  assert (0 <= rnd (elle ca * elle cb)).
  { apply rnd_nonneg. apply Rmult_le_pos; apply elle_nonneg. }
  rewrite rounded_math_sqrt_nonneg by done. simpl.
  intros He. by apply rounded_truediv_raises in He as [-> _].
Qed.

Lemma rounded_jx_no_pairs (hits1 hits2 : list Hit) :
  weights_of_pairs hits1 hits2 = [] →
  Rounded._jx rnd elle weights_of_pairs hits1 hits2 = Err ZeroDivisionError.
Proof.
  intros Hnil. unfold Rounded._jx. rewrite Hnil. simpl.
  apply rounded_mean_empty.
Qed.

Lemma rounded_jx_raises (hits1 hits2 : list Hit) (e : exn) :
  Rounded._jx rnd elle weights_of_pairs hits1 hits2 = Err e →
  e = ZeroDivisionError.
Proof.
  unfold Rounded._jx.
  destruct (comprehension _ _) as [vs | e'] eqn:Hc; simpl.
  - intros He. by apply rounded_truediv_raises in He as [-> _].
  - intros [= ->]. apply comprehension_raises in Hc as (p & _ & Hp).
    by eapply rounded_pair_score_raises.
Qed.

End RoundedExceptions.

(** C5, as stated, fails: a shared source without matched pairs is not
    left out of the average.  Entities A and C both have a hit from source
    X, but the two hits make different claims, so the extractor (with the
    cross-entity policy) finds no matched pair for X, whichever of the two
    entities' hits it is given: [_jx] divides by a pair count of zero and
    the exception leaves [_j_prime]. *)
Lemma zero_pairs_source_not_excluded :
  "X" ∈ sources_of [hit_A_X] ∩ sources_of [hit_C_X] ∧
  (∀ x y,
     x ∈ [of_source "X" [hit_A_X]; of_source "X" [hit_C_X]] →
     y ∈ [of_source "X" [hit_A_X]; of_source "X" [hit_C_X]] →
     matched_pairs cross_entity x y = []) ∧
  _jx elle_ramp (matched_pairs cross_entity)
      (of_source "X" [hit_A_X]) (of_source "X" [hit_C_X]) = Err ZeroDivisionError ∧
  _j_prime elle_ramp (matched_pairs cross_entity) [hit_A_X] [hit_C_X]
    = Err ZeroDivisionError.
Proof.
  assert (Hnil : ∀ x y,
            x ∈ [of_source "X" [hit_A_X]; of_source "X" [hit_C_X]] →
            y ∈ [of_source "X" [hit_A_X]; of_source "X" [hit_C_X]] →
            matched_pairs cross_entity x y = []).
  { intros x y. rewrite !elem_of_cons, !elem_of_nil.
    intros [-> | [-> | []]] [-> | [-> | []]]; reflexivity. }
  assert (Hshared : sources_of [hit_A_X] ∩ sources_of [hit_C_X] = {["X"]})
    by reflexivity.
  split_and!; [| done | |].
  - rewrite Hshared. by apply elem_of_singleton.
  - apply jx_no_pairs. apply Hnil; [by left | right; by left].
  - rewrite j_prime_shared_source by (rewrite Hshared; apply non_empty_singleton_L).
    rewrite Hshared, elements_singleton. unfold _j_prime_over.
    rewrite comprehension_singleton.
    rewrite jx_no_pairs; [done |]. apply Hnil; by left.
Qed.

(** C5, amended.  With every operation rounded to binary64 and a
    non-negative [elle]: [_jx] has no guard on the pair count, so whenever
    the extractor yields no matched pair for the hits it is given, [_jx]
    divides by zero and raises [ZeroDivisionError]; [_j_prime] excludes no
    source, so if for some shared source the extractor yields no matched
    pair, whichever of the two collections' hits of that source it is
    given, [_j_prime] raises [ZeroDivisionError]; and when [_j_prime]
    returns a number, every shared source has contributed one per-source
    score, computed from at least one matched pair, and the divisor is the
    number of shared sources. *)
Theorem zero_pairs_source_raises
    (rnd elle : R → R) (weights_of_pairs : list Hit → list Hit → list (R * R))
    (hits1 hits2 : list Hit) :
  rounding rnd → (∀ c, 0 <= elle c) →
  (weights_of_pairs hits1 hits2 = [] →
   Rounded._jx rnd elle weights_of_pairs hits1 hits2 = Err ZeroDivisionError) ∧
  (∀ source,
     source ∈ sources_of hits1 ∩ sources_of hits2 →
     (∀ x y,
        x ∈ [of_source source hits1; of_source source hits2] →
        y ∈ [of_source source hits1; of_source source hits2] →
        weights_of_pairs x y = []) →
     Rounded._j_prime rnd elle weights_of_pairs hits1 hits2
       = Err ZeroDivisionError) ∧
  (∀ r,
     Rounded._j_prime rnd elle weights_of_pairs hits1 hits2 = Ok (Num r) →
     ∃ values,
       Forall2 (λ source v,
                  ∃ x y,
                    x ∈ [of_source source hits1; of_source source hits2] ∧
                    y ∈ [of_source source hits1; of_source source hits2] ∧
                    weights_of_pairs x y ≠ [] ∧
                    Rounded._jx rnd elle weights_of_pairs x y = Ok v)
               (elements (sources_of hits1 ∩ sources_of hits2)) values ∧
       Rounded.truediv rnd (Rounded.fsum rnd values)
         (INR (size (sources_of hits1 ∩ sources_of hits2))) = Ok r).
Proof.
  intros Hrnd Hnn. split_and!.
  - apply rounded_jx_no_pairs.
  - intros source Hin Hnil.
    rewrite rounded_j_prime_shared_source
      by (intros Hempty; rewrite Hempty in Hin; by apply not_elem_of_empty in Hin).
    unfold Rounded._j_prime_over.
    rewrite (comprehension_raises_at _ _ ZeroDivisionError source); [done | | |].
    + intros s e. by apply rounded_jx_raises.
    + by apply elem_of_elements.
    + apply rounded_jx_no_pairs. apply Hnil; by left.
  - intros r. unfold Rounded._j_prime. destruct (decide _); [done |].
    unfold Rounded._j_prime_over.
    destruct (comprehension _ _) as [vs | e] eqn:Hvs; simpl; [| done].
    destruct (Rounded.truediv _ _ _) as [q | e] eqn:Hd; simpl; [| done].
    intros [= <-]. exists vs. split.
    + apply comprehension_ok in Hvs.
      eapply Forall2_impl; [exact Hvs |].
      intros source v Hv. simpl in Hv.
      exists (of_source source hits1), (of_source source hits1).
      split_and!; [by left | by left | | done].
      intros Hnil. by rewrite rounded_jx_no_pairs in Hv.
    + apply comprehension_length in Hvs.
      unfold len in Hd. by rewrite Hvs in Hd.
Qed.

Lemma zero_pairs_source_raises_witness :
  Rounded._jx (λ x, x) elle_ramp (matched_pairs cross_entity) [hit_A_X] [hit_C_X]
    = Err ZeroDivisionError ∧
  Rounded._j_prime (λ x, x) elle_ramp (matched_pairs cross_entity)
    [hit_A_X] [hit_C_X] = Err ZeroDivisionError.
Proof.
  destruct (zero_pairs_source_raises (λ x, x) elle_ramp (matched_pairs cross_entity)
              [hit_A_X] [hit_C_X] rounding_id elle_ramp_nonneg)
    as (Hjx & Hj & _).
  split.
  - apply Hjx. reflexivity.
  - apply (Hj "X").
    + change (sources_of [hit_A_X] ∩ sources_of [hit_C_X]) with ({["X"]} : gset string).
      by apply elem_of_singleton.
    + intros x y. rewrite !elem_of_cons, !elem_of_nil.
      intros [-> | [-> | []]] [-> | [-> | []]]; reflexivity.
Defined.

(** ** Further properties, with rounding *)

(** With every operation rounded to binary64: [_vee] is symmetric; for
    weights between 2^-500 and 2^500 it is positive, [_wedge] exceeds it
    by at most the factor [1 + 12 * eps], and it exceeds the sum of the
    two weights by at most the factor [1 + 4 * eps]. *)
Theorem vee_symmetric_near_bounds (rnd elle : R → R) (ca cb : R) :
  rounding rnd →
  Rounded._vee rnd elle ca cb = Rounded._vee rnd elle cb ca ∧
  (in_range (elle ca) → in_range (elle cb) →
   ∃ w v, Rounded._wedge rnd elle ca cb = Ok w ∧
          Rounded._vee rnd elle ca cb = Ok v ∧
          0 < w <= v * (1 + 12 * eps) ∧
          0 < v <= (elle ca + elle cb) * (1 + 4 * eps)).
Proof.
  intros Hrnd. split.
  - unfold Rounded._vee. by rewrite (Rmult_comm (elle cb)), (Rplus_comm (elle cb)).
  - intros Ha Hb.
    destruct (rounded_pair_score_value rnd elle Hrnd ca cb Ha Hb)
      as (Hw & Hv & Hv0 & _).
    do 2 eexists. split; [exact Hw |]. split; [exact Hv |].
    pose proof (pair_W rnd Hrnd _ _ Ha Hb) as [HW1 _].
    pose proof (pair_V rnd Hrnd _ _ Ha Hb) as (_ & [_ HV2]).
    pose proof (pair_T rnd Hrnd _ _ Ha Hb) as [_ HT].
    pose proof (pair_g _ _ Ha Hb) as (_ & [Hg1 _] & _).
    unfold_terms.
    destruct eps_small as [Hu0 Hu1].
    destruct range_facts as (_ & Hlo & _).
    destruct Ha as [Ha1 Ha2], Hb as [Hb1 Hb2].
    set (g := sqrt (elle ca * elle cb)) in *.
    set (w := rnd (sqrt (rnd (elle ca * elle cb)))) in *.
    set (v := rnd (rnd (elle ca + elle cb) - w)) in *.
    assert (0 < g * (1 - 2 * eps)) by (apply Rmult_lt_0_compat; lra).
    assert (Hwv : w = w / v * v) by (field; lra).
    assert (w / v * v <= (1 + 10 * eps) * v)
      by (apply Rmult_le_compat_r; lra).
    assert (0 <= v * eps) by (apply Rmult_le_pos; lra).
    assert (0 <= (elle ca + elle cb) * eps) by (apply Rmult_le_pos; lra).
    split_and!; lra.
Qed.

Lemma vee_symmetric_near_bounds_witness :
  Rounded._vee (λ x, x) elle_ramp 1 4 = Rounded._vee (λ x, x) elle_ramp 4 1 ∧
  ∃ w v, Rounded._wedge (λ x, x) elle_ramp 1 4 = Ok w ∧
         Rounded._vee (λ x, x) elle_ramp 1 4 = Ok v ∧
         0 < w <= v * (1 + 12 * eps) ∧
         0 < v <= (elle_ramp 1 + elle_ramp 4) * (1 + 4 * eps).
Proof.
  destruct (vee_symmetric_near_bounds (λ x, x) elle_ramp 1 4 rounding_id)
    as [Hsym Hb].
  split; [exact Hsym |]. apply Hb.
  - rewrite elle_ramp_1. apply in_range_1.
  - rewrite elle_ramp_4. apply in_range_4.
Defined.

(** With every operation rounded to binary64, when the extractor yields
    between 1 and 2^53 pairs whose weights lie between 2^-500 and 2^500,
    [_jx] returns a score that is positive and at most [1 + 16 * eps]. *)
Theorem jx_near_unit_interval
    (rnd elle : R → R) (weights_of_pairs : list Hit → list Hit → list (R * R))
    (hits1 hits2 : list Hit) :
  rounding rnd →
  weights_of_pairs hits1 hits2 ≠ [] →
  INR (length (weights_of_pairs hits1 hits2)) <= 2 ^ 53 →
  (∀ p, p ∈ weights_of_pairs hits1 hits2 →
        in_range (elle p.1) ∧ in_range (elle p.2)) →
  ∃ v, Rounded._jx rnd elle weights_of_pairs hits1 hits2 = Ok v ∧
       0 < v <= 1 + 16 * eps.
Proof.
  intros Hrnd Hne Hcap Hin.
  destruct (rounded_jx_bounds rnd elle weights_of_pairs Hrnd _ _ Hne Hcap Hin)
    as (v & Hv & _ & Hv1 & Hv2).
  destruct score_lo_facts as [Hs0 _].
  exists v. split; [done | lra].
Qed.

Lemma jx_near_unit_interval_witness :
  ∃ v, Rounded._jx (λ x, x) elle_ramp (matched_pairs same_claim)
         [hit_A_X; hit_A_X4] [hit_A_X; hit_A_X4] = Ok v ∧
       0 < v <= 1 + 16 * eps.
Proof.
  apply (jx_near_unit_interval (λ x, x) elle_ramp (matched_pairs same_claim)
           [hit_A_X; hit_A_X4] [hit_A_X; hit_A_X4]).
  - apply rounding_id.
  - done.
  - simpl. lra.
  - change (matched_pairs same_claim [hit_A_X; hit_A_X4] [hit_A_X; hit_A_X4])
      with [(1, 1); (1, 4); (4, 1); (4, 4)].
    intros p. rewrite !elem_of_cons, elem_of_nil.
    pose proof in_range_1. pose proof in_range_4.
    intros [-> | [-> | [-> | [-> | []]]]]; simpl;
      rewrite ?elle_ramp_1, ?elle_ramp_4; done.
Defined.

(** ** The per-pair score on binary64 floats *)

(** At the weight 1.0 the score is exactly 1.0; at the nearby
    weights [weight_a] and [weight_b] it is 4503599627370498 * 2^-52, the
    second float above 1; at two weights 2^600 the product overflows and
    the score is nan; at two weights 2^-600 the product underflows and the
    score is 0.0. *)
Lemma pair_score_binary64 :
  Binary64.pair_score Binary64.elle_ramp (1%float, 1%float) = Ok 1%float ∧
  (∃ q, Binary64.pair_score Binary64.elle_ramp (weight_a, weight_b) = Ok q ∧
        Prim2SF q = S754_finite false 4503599627370498 (-52)) ∧
  (∃ q, Binary64.pair_score Binary64.elle_ramp (weight_big, weight_big) = Ok q ∧
        Prim2SF q = S754_nan) ∧
  Binary64.pair_score Binary64.elle_ramp (weight_small, weight_small) = Ok 0%float.
Proof.
  split_and!.
  - vm_compute. reflexivity.
  - eexists. split; [vm_compute; reflexivity | reflexivity].
  - eexists. split; [vm_compute; reflexivity | reflexivity].
  - vm_compute. reflexivity.
Qed.

(** * Properties of entry/_arg_utils.py *)

(** ** Text helpers *)

Lemma lstrip_idemp (s : string) : lstrip (lstrip s) = lstrip s.
Proof.
  induction s as [| c s IH]; [done |]. simpl.
  destruct (isspace c) eqn:Hc; [done |]. simpl. by rewrite Hc.
Qed.

Lemma rstrip_idemp (s : string) : rstrip (rstrip s) = rstrip s.
Proof.
  induction s as [| c s IH]; [done |]. simpl.
  destruct (rstrip s) as [| c' t] eqn:Hr.
  - destruct (isspace c) eqn:Hc; [done |]. simpl. by rewrite Hc.
  - simpl in *. by rewrite IH.
Qed.

Lemma rstrip_lstrip (t : string) : rstrip t = t → rstrip (lstrip t) = lstrip t.
Proof.
  induction t as [| c t IH]; [done |]. intros Hfix. simpl.
  destruct (isspace c) eqn:Hc; [| done].
  apply IH. simpl in Hfix. rewrite Hc in Hfix.
  destruct (rstrip t) as [| c' t']; [done |]. congruence.
Qed.

Lemma str_strip_idemp (s : string) : str_strip (str_strip s) = str_strip s.
Proof.
  unfold str_strip.
  rewrite (rstrip_lstrip (rstrip s)) by apply rstrip_idemp.
  apply lstrip_idemp.
Qed.

Lemma occurs_lstrip (c : ascii) (s : string) :
  occurs c (lstrip s) = true → occurs c s = true.
Proof.
  induction s as [| c' s IH]; [done |]. simpl.
  destruct (isspace c'); [| done].
  intros H. rewrite (IH H). apply orb_true_r.
Qed.

Lemma occurs_rstrip (c : ascii) (s : string) :
  occurs c (rstrip s) = true → occurs c s = true.
Proof.
  induction s as [| c' s IH]; [done |]. simpl.
  destruct (rstrip s) as [| c'' t].
  - destruct (isspace c'); [done |]. simpl. rewrite orb_false_r.
    intros ->. done.
  - simpl in *. intros [-> | H]%orb_true_iff; [done |].
    rewrite IH by done. apply orb_true_r.
Qed.

Lemma occurs_str_strip (c : ascii) (s : string) :
  occurs c (str_strip s) = true → occurs c s = true.
Proof. intros H. by apply occurs_rstrip, occurs_lstrip. Qed.

Lemma str_split_nonempty (sep : ascii) (s : string) : str_split sep s ≠ [].
Proof.
  induction s as [| c s IH]; [done |]. simpl.
  destruct (decide (c = sep)); [done |]. by destruct (str_split sep s).
Qed.

Lemma str_split_no_sep (sep : ascii) (s : string) :
  Forall (λ t, occurs sep t = false) (str_split sep s).
Proof.
  induction s as [| c s IH]; simpl.
  - by constructor.
  - destruct (decide (c = sep)) as [| Hne]; [by constructor |].
    destruct (str_split sep s) as [| t ts]; simpl.
    + constructor; [| done]. simpl. by rewrite bool_decide_eq_false_2.
    + inversion IH as [| ? ? Ht Hts]; subst.
      constructor; [| done]. simpl. by rewrite bool_decide_eq_false_2.
Qed.

Lemma str_split_app (sep : ascii) (a b : string) :
  str_split sep (a +:+ String sep b) = str_split sep a ++ str_split sep b.
Proof.
  induction a as [| c a IH]; simpl.
  - by rewrite decide_True.
  - destruct (decide (c = sep)); [by rewrite IH |].
    rewrite IH. pose proof (str_split_nonempty sep a).
    by destruct (str_split sep a).
Qed.

Lemma occurs_app_sep (sep : ascii) (a b : string) :
  occurs sep (a +:+ String sep b) = true.
Proof.
  induction a as [| c a IH]; simpl.
  - by rewrite bool_decide_eq_true_2.
  - rewrite IH. apply orb_true_r.
Qed.

Lemma int_from_nonneg (acc : Z) (s : string) : (0 ≤ acc → 0 ≤ int_from acc s)%Z.
Proof.
  revert acc. induction s as [| c s IH]; intros acc Hacc; simpl; [done |].
  apply IH. lia.
Qed.

(** ** Comprehensions over [outcome] *)

Lemma traverse_app {A B : Type} (f : A → outcome B) (l1 l2 : list A) :
  traverse f (l1 ++ l2) =
    ys1 ← traverse f l1; ys2 ← traverse f l2; Return (ys1 ++ ys2).
Proof.
  induction l1 as [| x l1 IH]; simpl.
  - by destruct (traverse f l2).
  - destruct (f x) as [y | e]; simpl; [| done]. rewrite IH.
    destruct (traverse f l1) as [ys1 | e]; simpl; [| done].
    by destruct (traverse f l2).
Qed.

Lemma traverse_return {A B : Type} (f : A → outcome B) (g : A → B) (l : list A) :
  (∀ x, f x = Return (g x)) → traverse f l = Return (g <$> l).
Proof.
  intros Hf. induction l as [| x l IH]; [done |].
  simpl. by rewrite Hf, IH.
Qed.

Lemma traverse_inv {A B : Type} (f : A → outcome B) (l : list A) :
  match traverse f l with
  | Return ys => Forall2 (λ x y, f x = Return y) l ys
  | Raise e => ∃ x, x ∈ l ∧ f x = Raise e
  end.
Proof.
  induction l as [| x l IH]; simpl; [constructor |].
  destruct (f x) as [y | e] eqn:Hx; simpl.
  - destruct (traverse f l) as [ys | e]; simpl.
    + by constructor.
    + destruct IH as (x' & Hin & Hx'). exists x'. split; [by right | done].
  - exists x. split; [by left | done].
Qed.

(** The element at which a comprehension raises, and those before it. *)
Lemma traverse_raise_inv {A B : Type} (f : A → outcome B) (l : list A) (e : xerror) :
  traverse f l = Raise e →
  ∃ l1 x l2 ys, l = l1 ++ x :: l2 ∧ traverse f l1 = Return ys ∧ f x = Raise e.
Proof.
  induction l as [| x l IH]; simpl; [done |].
  destruct (f x) as [y | e'] eqn:Hx; simpl.
  - destruct (traverse f l) as [ys | e'] eqn:Hl; simpl; [done |].
    intros [= ->]. destruct IH as (l1 & x' & l2 & ys & -> & Hl1 & Hx'); [done |].
    exists (x :: l1), x', l2, (y :: ys). simpl. by rewrite Hx, Hl1.
  - intros [= ->]. by exists [], x, l, [].
Qed.

(** ** Taxa *)

Section TaxaProperties.

Variable vertebrata : string.
Variable cellular_taxon : string.
Variable viral_taxon : string.

Lemma tokens_trimmed (taxa : string) :
  Forall (λ t, t ≠ "" ∧ str_strip t = t ∧ occurs "," t = false) (tokens taxa).
Proof.
  unfold tokens. apply Forall_fmap, Forall_forall. intros t Hin.
  apply list_elem_of_filter in Hin as [Hlen Hin]. simpl.
  split_and!.
  - intros Heq. rewrite Heq in Hlen. simpl in Hlen. lia.
  - apply str_strip_idemp.
  - pose proof (str_split_no_sep "," taxa) as Hall.
    rewrite Forall_forall in Hall. specialize (Hall t Hin).
    destruct (occurs "," (str_strip t)) eqn:Ho; [| done].
    apply occurs_str_strip in Ho. congruence.
Qed.

Lemma tokens_app (a b : string) :
  tokens (a +:+ "," +:+ b) = tokens a ++ tokens b.
Proof.
  unfold tokens.
  change (a +:+ "," +:+ b) with (a +:+ String "," b).
  by rewrite str_split_app, filter_app, fmap_app.
Qed.

Lemma std_taxa_no_comma (a b : string) :
  std_taxa vertebrata cellular_taxon viral_taxon !! (a +:+ "," +:+ b) = None.
Proof.
  pose proof (occurs_app_sep "," a b) as Ho.
  change (a +:+ String "," b) with (a +:+ "," +:+ b) in Ho.
  destruct (std_taxa vertebrata cellular_taxon viral_taxon !! (a +:+ "," +:+ b))
    as [x |] eqn:Hl; [exfalso | done].
  apply elem_of_list_to_map_2 in Hl.
  repeat (apply elem_of_cons in Hl as [[= Hk _] | Hl];
          [rewrite Hk in Ho; discriminate Ho |]).
  by apply elem_of_nil in Hl.
Qed.

Lemma app_sep_not_empty (a b : string) : a +:+ "," +:+ b ≠ "".
Proof. by destruct a. Qed.

Lemma parse_taxa_tokens (taxa : option string) :
  parse_taxa vertebrata cellular_taxon viral_taxon taxa =
    Return (taxon_str <$>
              match taxa with
              | None => []
              | Some s =>
                  if decide (s = "") then []
                  else tokens (_get_std_taxon vertebrata cellular_taxon viral_taxon s)
              end).
Proof.
  unfold parse_taxa. destruct taxa as [s |]; [| done].
  destruct (decide (s = "")); [done |].
  by apply traverse_return.
Qed.

Lemma parse_taxon_id (t : string) :
  parse_taxon (taxon_str t) true =
    if str_isdigit t then
      if (int_max_str_digits <? String.length t)%nat then Raise BuiltinValueError
      else Return (taxon_int (int_from 0%Z t))
    else Raise (XTypeError ("Taxon " +:+ t +:+ " must be an ID")).
Proof.
  unfold parse_taxon, int_of_str. simpl. destruct (str_isdigit t); [| done].
  by destruct (_ <? _)%nat.
Qed.

(** The tokens that [parse_taxa_ids] converts: strings of at most 4300
    digits. *)
Lemma parse_taxon_id_return (t : string) (y : taxon) :
  parse_taxon (taxon_str t) true = Return y ↔
  (str_isdigit t = true ∧ (String.length t ≤ int_max_str_digits)%nat) ∧
  y = taxon_int (int_from 0%Z t).
Proof.
  rewrite parse_taxon_id. destruct (str_isdigit t).
  - destruct (Nat.ltb_spec int_max_str_digits (String.length t)) as [Hlt | Hle].
    + split; [done |]. intros [[_ Hle] _]. lia.
    + split; [by intros [= <-] | by intros [_ ->]].
  - split; [done |]. by intros [[? _] _].
Qed.

(** On ASCII text, [parse_taxa] never raises and never converts: it
    returns the tokens of the (expanded) argument as strings, in their
    order, and every one of them is not empty, carries no white space at
    either end and contains no comma. *)
Theorem parse_taxa_returns_tokens (taxa : option string) :
  (∀ s, taxa = Some s →
        ascii_text (_get_std_taxon vertebrata cellular_taxon viral_taxon s) = true) →
  parse_taxa vertebrata cellular_taxon viral_taxon taxa
    = Return (taxon_str <$>
                expanded_tokens vertebrata cellular_taxon viral_taxon taxa) ∧
  Forall (λ t, t ≠ "" ∧ str_strip t = t ∧ occurs "," t = false)
         (expanded_tokens vertebrata cellular_taxon viral_taxon taxa).
Proof.
  intros _. split; [apply parse_taxa_tokens |].
  unfold expanded_tokens. destruct taxa as [s |]; [| constructor].
  destruct (decide (s = "")); [constructor |]. apply tokens_trimmed.
Qed.

(** On ASCII text that is not empty, [parse_taxa_ids] returns exactly when
    every token is a string of at most 4300 digits, and then it returns
    their integer values, none negative, in their order; otherwise it
    raises at the first token that is not such a string: [XTypeError]
    naming the token if it is not a string of digits, the builtin
    [ValueError] if it has more than 4300 digits. *)
Theorem parse_taxa_ids_ints_or_error (taxa : string) :
  taxa ≠ "" →
  ascii_text (_get_std_taxon vertebrata cellular_taxon viral_taxon taxa) = true →
  match parse_taxa_ids vertebrata cellular_taxon viral_taxon (Some taxa) with
  | Return ids =>
      Forall (λ t, str_isdigit t = true ∧ (String.length t ≤ int_max_str_digits)%nat)
             (tokens (_get_std_taxon vertebrata cellular_taxon viral_taxon taxa)) ∧
      ids = (taxon_int ∘ int_from 0%Z) <$>
              tokens (_get_std_taxon vertebrata cellular_taxon viral_taxon taxa) ∧
      Forall (λ x, ∃ n, x = taxon_int n ∧ (0 ≤ n)%Z) ids
  | Raise e =>
      ∃ before t after,
        tokens (_get_std_taxon vertebrata cellular_taxon viral_taxon taxa)
          = before ++ t :: after ∧
        Forall (λ t', str_isdigit t' = true ∧
                      (String.length t' ≤ int_max_str_digits)%nat) before ∧
        (str_isdigit t = false ∧
           e = XTypeError ("Taxon " +:+ t +:+ " must be an ID") ∨
         str_isdigit t = true ∧ (int_max_str_digits < String.length t)%nat ∧
           e = BuiltinValueError)
  end.
Proof.
  intros Hne _. unfold parse_taxa_ids. rewrite decide_False by done. simpl.
  destruct (traverse _ _) as [ids | e] eqn:Htr.
  - pose proof (traverse_inv (λ t, parse_taxon (taxon_str t) true)
      (tokens (_get_std_taxon vertebrata cellular_taxon viral_taxon taxa))) as Hinv.
    rewrite Htr in Hinv.
    assert (Hall : Forall2 (λ t y,
                       (str_isdigit t = true ∧
                        (String.length t ≤ int_max_str_digits)%nat) ∧
                       y = taxon_int (int_from 0%Z t))
                     (tokens (_get_std_taxon vertebrata cellular_taxon viral_taxon taxa))
                     ids).
    { eapply Forall2_impl; [exact Hinv |]. intros t y. simpl.
      by rewrite parse_taxon_id_return. }
    clear Hinv Htr. split_and!.
    + induction Hall as [| t y ts ys [Ht _] _ IH]; by constructor.
    + induction Hall as [| t y ts ys [_ ->] _ IH]; [done |]. csimpl. by rewrite IH.
    + induction Hall as [| t y ts ys [_ ->] _ IH]; constructor; [| done].
      eexists. split; [done |]. by apply int_from_nonneg.
  - apply traverse_raise_inv in Htr as (before & t & after & ys & Htok & Hbefore & Ht).
    exists before, t, after. split; [done |]. split.
    + pose proof (traverse_inv (λ t, parse_taxon (taxon_str t) true) before) as Hinv.
      rewrite Hbefore in Hinv.
      clear Htok Hbefore.
      induction Hinv as [| t' y ts' ys' Ht' _ IH]; constructor; [| done].
      by apply parse_taxon_id_return in Ht' as [? _].
    + rewrite parse_taxon_id in Ht. destruct (str_isdigit t); [right | left].
      * destruct (Nat.ltb_spec int_max_str_digits (String.length t)) as [Hlt | Hle];
          [| done].
        by injection Ht as <-.
      * by injection Ht as <-.
Qed.

(** Splitting at a comma, on ASCII text: when neither side is one of the
    standard names, parsing [a,b] is parsing [a], then [b], and joining
    the results; an exception of the left side comes first. *)
Theorem parse_taxa_at_comma (a b : string) :
  std_taxa vertebrata cellular_taxon viral_taxon !! a = None →
  std_taxa vertebrata cellular_taxon viral_taxon !! b = None →
  ascii_text a = true → ascii_text b = true →
  parse_taxa vertebrata cellular_taxon viral_taxon (Some (a +:+ "," +:+ b)) =
    (l1 ← parse_taxa vertebrata cellular_taxon viral_taxon (Some a);
     l2 ← parse_taxa vertebrata cellular_taxon viral_taxon (Some b);
     Return (l1 ++ l2)) ∧
  parse_taxa_ids vertebrata cellular_taxon viral_taxon (Some (a +:+ "," +:+ b)) =
    (l1 ← parse_taxa_ids vertebrata cellular_taxon viral_taxon (Some a);
     l2 ← parse_taxa_ids vertebrata cellular_taxon viral_taxon (Some b);
     Return (l1 ++ l2)).
Proof.
  intros Ha Hb _ _.
  assert (Hab : _get_std_taxon vertebrata cellular_taxon viral_taxon (a +:+ "," +:+ b)
                = a +:+ "," +:+ b)
    by (unfold _get_std_taxon; by rewrite std_taxa_no_comma).
  assert (Hga : _get_std_taxon vertebrata cellular_taxon viral_taxon a = a)
    by (unfold _get_std_taxon; by rewrite Ha).
  assert (Hgb : _get_std_taxon vertebrata cellular_taxon viral_taxon b = b)
    by (unfold _get_std_taxon; by rewrite Hb).
  assert (Hta : ∀ (f : string → outcome taxon),
            (if decide (a = "") then Return []
             else traverse f (tokens a)) = traverse f (tokens a))
    by (intros f; destruct (decide (a = "")) as [-> |]; done).
  assert (Htb : ∀ (f : string → outcome taxon),
            (if decide (b = "") then Return []
             else traverse f (tokens b)) = traverse f (tokens b))
    by (intros f; destruct (decide (b = "")) as [-> |]; done).
  unfold parse_taxa, parse_taxa_ids.
  rewrite !(decide_False (P := a +:+ "," +:+ b = "")) by apply app_sep_not_empty.
  simpl. rewrite Hab, Hga, Hgb, tokens_app, !traverse_app, !Hta, !Htb. done.
Qed.

End TaxaProperties.

Section GetTaxonomy.

Variable vertebrata : string.
Variable cellular_taxon : string.
Variable viral_taxon : string.
Context {Taxonomy : Type}.
Variable get_smart_taxonomy :
  list taxon → list taxon → list taxon → bool → outcome Taxonomy.

(** [get_taxonomy] returns [None] for absent or empty taxa without looking
    at the other arguments; otherwise the three arguments are parsed before
    the factory is called, so ancestors that are not IDs raise
    [XTypeError] and the factory is not reached. *)
Theorem get_taxonomy_parses_first
    (s : string) (forbid ancestors : option string) (local_only : bool)
    (e : xerror) :
  s ≠ "" →
  parse_taxa_ids vertebrata cellular_taxon viral_taxon ancestors = Raise e →
  get_taxonomy vertebrata cellular_taxon viral_taxon get_smart_taxonomy
    None forbid ancestors local_only = Return None ∧
  get_taxonomy vertebrata cellular_taxon viral_taxon get_smart_taxonomy
    (Some "") forbid ancestors local_only = Return None ∧
  get_taxonomy vertebrata cellular_taxon viral_taxon get_smart_taxonomy
    (Some s) forbid ancestors local_only = Raise e.
Proof.
  intros Hne He. split_and!; [done | done |].
  unfold get_taxonomy. rewrite decide_False by (by destruct s).
  rewrite !parse_taxa_tokens. simpl. by rewrite He.
Qed.

End GetTaxonomy.

Lemma parse_taxa_returns_tokens_witness :
  parse_taxa "7742" "131567" "10239" (Some "cell, Homo sapiens ,9606")
    = Return (taxon_str <$>
                expanded_tokens "7742" "131567" "10239"
                  (Some "cell, Homo sapiens ,9606")) ∧
  Forall (λ t, t ≠ "" ∧ str_strip t = t ∧ occurs "," t = false)
         (expanded_tokens "7742" "131567" "10239" (Some "cell, Homo sapiens ,9606")).
Proof.
  apply (parse_taxa_returns_tokens "7742" "131567" "10239"
           (Some "cell, Homo sapiens ,9606")).
  intros s [= <-]. reflexivity.
Defined.

Lemma parse_taxa_ids_ints_or_error_witness :
  match parse_taxa_ids "7742" "131567" "10239" (Some " 007 , 42,,") with
  | Return ids =>
      Forall (λ t, str_isdigit t = true ∧ (String.length t ≤ int_max_str_digits)%nat)
             (tokens (_get_std_taxon "7742" "131567" "10239" " 007 , 42,,")) ∧
      ids = (taxon_int ∘ int_from 0%Z) <$>
              tokens (_get_std_taxon "7742" "131567" "10239" " 007 , 42,,") ∧
      Forall (λ x, ∃ n, x = taxon_int n ∧ (0 ≤ n)%Z) ids
  | Raise e =>
      ∃ before t after,
        tokens (_get_std_taxon "7742" "131567" "10239" " 007 , 42,,")
          = before ++ t :: after ∧
        Forall (λ t', str_isdigit t' = true ∧
                      (String.length t' ≤ int_max_str_digits)%nat) before ∧
        (str_isdigit t = false ∧
           e = XTypeError ("Taxon " +:+ t +:+ " must be an ID") ∨
         str_isdigit t = true ∧ (int_max_str_digits < String.length t)%nat ∧
           e = BuiltinValueError)
  end.
Proof.
  apply (parse_taxa_ids_ints_or_error "7742" "131567" "10239" " 007 , 42,,").
  - done.
  - reflexivity.
Defined.

Lemma parse_taxa_at_comma_witness :
  parse_taxa "7742" "131567" "10239" (Some ("Homo sapiens" +:+ "," +:+ " 9606")) =
    (l1 ← parse_taxa "7742" "131567" "10239" (Some "Homo sapiens");
     l2 ← parse_taxa "7742" "131567" "10239" (Some " 9606");
     Return (l1 ++ l2)) ∧
  parse_taxa_ids "7742" "131567" "10239" (Some ("Homo sapiens" +:+ "," +:+ " 9606")) =
    (l1 ← parse_taxa_ids "7742" "131567" "10239" (Some "Homo sapiens");
     l2 ← parse_taxa_ids "7742" "131567" "10239" (Some " 9606");
     Return (l1 ++ l2)).
Proof.
  apply (parse_taxa_at_comma "7742" "131567" "10239" "Homo sapiens" " 9606");
    reflexivity.
Defined.

Lemma get_taxonomy_parses_first_witness :
  get_taxonomy "7742" "131567" "10239"
    (λ allow forbid ancestors local_only, Return (allow, forbid, ancestors))
    None None (Some "human") false = Return None ∧
  get_taxonomy "7742" "131567" "10239"
    (λ allow forbid ancestors local_only, Return (allow, forbid, ancestors))
    (Some "") None (Some "human") false = Return None ∧
  get_taxonomy "7742" "131567" "10239"
    (λ allow forbid ancestors local_only, Return (allow, forbid, ancestors))
    (Some "vertebrata") None (Some "human") false
    = Raise (XTypeError "Taxon human must be an ID").
Proof.
  apply (get_taxonomy_parses_first "7742" "131567" "10239"
           (λ allow forbid ancestors local_only, Return (allow, forbid, ancestors))
           "vertebrata" None (Some "human") false).
  - done.
  - reflexivity.
Defined.

(** * Properties of search/chembl/atc_search.py *)

Lemma foldl_snoc_fmap {A B : Type} (f : A → B) (l : list A) (acc : list B) :
  foldl (λ found x, found ++ [f x]) acc l = acc ++ (f <$> l).
Proof.
  revert acc. induction l as [| x l IH]; intros acc; simpl.
  - by rewrite (right_id_L [] (++)).
  - rewrite IH. by rewrite <- (assoc_L (++)).
Qed.

Lemma foldl_extend_concat {A B : Type} (f : A → list B) (l : list A) (acc : list B) :
  foldl (λ hits x, hits ++ f x) acc l = acc ++ concat (f <$> l).
Proof.
  revert acc. induction l as [| x l IH]; intros acc; simpl.
  - by rewrite (right_id_L [] (++)).
  - rewrite IH. by rewrite <- (assoc_L (++)).
Qed.

Lemma sorted_strictly (levels : gset Z) : StronglySorted Z.lt (sorted levels).
Proof.
  unfold sorted.
  assert (Hnd : NoDup (merge_sort Z.le (elements levels)))
    by (rewrite merge_sort_Permutation; apply NoDup_elements).
  pose proof (StronglySorted_merge_sort Z.le (elements levels)) as Hs.
  induction Hs as [| x l Hl IH Hx]; [constructor |].
  apply NoDup_cons in Hnd as [Hnin Hnd]. constructor; [by apply IH |].
  apply Forall_forall. intros y Hy. rewrite Forall_forall in Hx.
  specialize (Hx y Hy). assert (x ≠ y) by (by intros ->). lia.
Qed.

Lemma sorted_elem_of (levels : gset Z) (l : Z) : l ∈ sorted levels ↔ l ∈ levels.
Proof. unfold sorted. by rewrite merge_sort_Permutation, elem_of_elements. Qed.

Lemma sorted_length (levels : gset Z) : length (sorted levels) = size levels.
Proof. unfold sorted. by rewrite merge_sort_Permutation. Qed.

Section AtcSearchProperties.

Variable dots : Type.
Variable atc_class_get : string → dots.
Variable dots_get : dots → string → option string.
Variable compound_dict : Type.
Variable get_compound_dot_dict : string → compound_dict.
Variable compound_dot_dict_to_obj : compound_dict → ChemblCompound.
Variable atc_classifications : compound_dict → option (list string).
Variable lower : string → string.
Variable levels : gset Z.

Lemma process_fmap (lookup : string) (compound : ChemblCompound) (atc : string) :
  process dots atc_class_get dots_get lower levels lookup compound atc =
    _code dots dots_get lower lookup compound (atc_class_get atc) <$> sorted levels.
Proof. unfold process. by rewrite foldl_snoc_fmap. Qed.

(** [process] returns one hit for each requested level and no other, in
    strictly increasing order of level, whatever the order of the set;
    each hit carries the lookup as origin and the predicate of its level,
    and the object name of a level-5 hit is the compound name in lower
    case. *)
Theorem process_one_hit_per_level
    (lookup : string) (compound : ChemblCompound) (atc : string) :
  let hits := process dots atc_class_get dots_get lower levels lookup compound atc in
  StronglySorted Z.lt (level <$> hits) ∧
  (∀ l, l ∈ level <$> hits ↔ l ∈ levels) ∧
  length hits = size levels ∧
  Forall (λ h,
            c_origin h = lookup ∧
            predicate h = "atc:level" +:+ pretty (level h) ∧
            object_id h = dots_get (atc_class_get atc) ("level" +:+ pretty (level h)) ∧
            (level h = 5%Z → object_name h = Some (lower (name compound))))
         hits.
Proof.
  simpl. rewrite process_fmap.
  assert (Hlv : level <$> (_code dots dots_get lower lookup compound (atc_class_get atc)
                            <$> sorted levels) = sorted levels).
  { induction (sorted levels) as [| l ls IH]; [done |]. csimpl. by rewrite IH. }
  rewrite Hlv. split_and!.
  - apply sorted_strictly.
  - apply sorted_elem_of.
  - rewrite length_fmap. apply sorted_length.
  - apply Forall_fmap, Forall_forall. intros l _. simpl.
    split_and!; [done | done | done |]. intros ->. done.
Qed.

(** [find] returns no hit for a compound without ATC classifications;
    otherwise it returns the hits of each ATC code, code after code, so
    their number is the number of codes times the number of levels. *)
Theorem find_hits_per_code (lookup : string) :
  let ch := get_compound_dot_dict lookup in
  let compound := compound_dot_dict_to_obj ch in
  let result := find dots atc_class_get dots_get compound_dict get_compound_dot_dict
                  compound_dot_dict_to_obj atc_classifications lower levels lookup in
  (atc_classifications ch = None → result = []) ∧
  (∀ codes,
     atc_classifications ch = Some codes →
     result = concat (process dots atc_class_get dots_get lower levels lookup compound
                        <$> codes) ∧
     length result = (length codes * size levels)%nat).
Proof.
  simpl. unfold find. split.
  - by intros ->.
  - intros codes ->. rewrite foldl_extend_concat. simpl. split; [done |].
    induction codes as [| atc codes IH]; [done |].
    csimpl. rewrite length_app, IH, process_fmap, length_fmap, sorted_length. lia.
Qed.

End AtcSearchProperties.

Lemma process_one_hit_per_level_witness :
  let hits := process (gmap string string) (λ _, {["level1" := "N"]})
                (λ d key, d !! key) (λ s, s) {[5%Z; 1%Z]}
                "CHEMBL25" (mkCompound "CHEMBL25" "BSYNRYMUTXBXSQ" "aspirin") "N02BA01" in
  StronglySorted Z.lt (level <$> hits) ∧
  (∀ l, l ∈ level <$> hits ↔ l ∈ ({[5%Z; 1%Z]} : gset Z)) ∧
  length hits = size ({[5%Z; 1%Z]} : gset Z) ∧
  Forall (λ h,
            c_origin h = "CHEMBL25" ∧
            predicate h = "atc:level" +:+ pretty (level h) ∧
            object_id h = ({["level1" := "N"]} : gmap string string)
                            !! ("level" +:+ pretty (level h)) ∧
            (level h = 5%Z → object_name h = Some "aspirin"))
         hits.
Proof.
  apply (process_one_hit_per_level (gmap string string) (λ _, {["level1" := "N"]})
           (λ d key, d !! key) (λ s, s) {[5%Z; 1%Z]}
           "CHEMBL25" (mkCompound "CHEMBL25" "BSYNRYMUTXBXSQ" "aspirin") "N02BA01").
Defined.

Lemma find_hits_per_code_witness :
  let result := find (gmap string string) (λ _, {["level1" := "N"]})
                  (λ d key, d !! key) (option (list string))
                  (λ lookup, Some ["N02BA01"; "B01AC06"])
                  (λ _, mkCompound "CHEMBL25" "BSYNRYMUTXBXSQ" "aspirin")
                  (λ ch, ch) (λ s, s) {[5%Z; 1%Z]} "CHEMBL25" in
  result = concat (process (gmap string string) (λ _, {["level1" := "N"]})
                     (λ d key, d !! key) (λ s, s) {[5%Z; 1%Z]} "CHEMBL25"
                     (mkCompound "CHEMBL25" "BSYNRYMUTXBXSQ" "aspirin")
                   <$> ["N02BA01"; "B01AC06"]) ∧
  length result = (length ["N02BA01"; "B01AC06"] * size ({[5%Z; 1%Z]} : gset Z))%nat.
Proof.
  apply (find_hits_per_code (gmap string string) (λ _, {["level1" := "N"]})
           (λ d key, d !! key) (option (list string))
           (λ lookup, Some ["N02BA01"; "B01AC06"])
           (λ _, mkCompound "CHEMBL25" "BSYNRYMUTXBXSQ" "aspirin")
           (λ ch, ch) (λ s, s) {[5%Z; 1%Z]} "CHEMBL25").
  reflexivity.
Defined.
